(** * Record linkage (Fellegi-Sunter): a shallow embedding of record_linkage.py

    The development follows the Python module function by function:
    [gen_prob_tuple], [compute_probabilities], [ordered_probabilities],
    [put_labels] and the label lookup of [find_matches].  Definitions come
    first, in the order of the pipeline; lemmas and theorems follow.

    Number model.  The module computes with Python floats, IEEE 754
    doubles.  The functions that do arithmetic, [put_labels] and
    [compute_probabilities], are given twice.  First over exact rationals
    [Q], where [+], [/] and [<=] are [Qplus], [Qdiv] and [Qle_bool]: this
    is the model of the properties that do not depend on how a sum is
    rounded.  Then over an arithmetic [arith] that is a parameter
    ([put_labels_on], [compute_probabilities_on]), with two instances:
    [exact], the rationals again ([put_labels_on_exact]), and [binary64],
    the doubles of PrimFloat with round to nearest even.  Properties that
    rounding could break are proved for every arithmetic, from the laws
    they need; what rounding does break is evaluated on [binary64]. *)

From Corelib Require Import PrimFloat.
From Corelib Require SpecFloat FloatAxioms.
From Stdlib Require Import QArith Qabs Lqa.
From stdpp Require Import gmap strings list sorting.

Local Open Scope Q_scope.

(** ** Data model *)

(** Modelled from the spec: util.get_jw_category is not among the sources;
    the Similarity Category is the closed ordinal enumeration
    low / medium / high that the docstring of gen_prob_tuple shows. *)
Inductive category : Type := low | medium | high.

Definition category_rank (c : category) : nat :=
  match c with low => 0%nat | medium => 1%nat | high => 2%nat end.

Definition category_of_rank (n : nat) : category :=
  match n with O => low | S O => medium | _ => high end.

Global Instance category_eq_dec : EqDecision category.
Proof. solve_decision. Defined.

Global Instance category_countable : Countable category.
Proof.
  apply (inj_countable' category_rank category_of_rank).
  by intros [].
Defined.

(** A probability tuple of the source, e.g. (high, medium, low): the
    signature of a record pair. *)
Abbreviation signature := (list category).

(** The three labels written to the output: 'match', 'unmatch' and
    'possible match'. *)
Inductive label : Type := Match | Unmatch | PossibleMatch.

Global Instance label_eq_dec : EqDecision label.
Proof. solve_decision. Defined.

(** An element of ordered_probs: (sim, match probability, unmatch
    probability); Python's t[0], t[1], t[2]. *)
Abbreviation prob_tuple := (signature * Q * Q)%type.

Definition sim_of (t : prob_tuple) : signature := t.1.1.
Definition match_prob (t : prob_tuple) : Q := t.1.2.
Definition unmatch_prob (t : prob_tuple) : Q := t.2.

(** ** Records, datasets and errors *)

(** A row of a dataset: the text of its columns, in column order
    (tuple(df.loc[k, :])). *)
Abbreviation record := (list string).

(** A DataFrame indexed by its first column (index_col=0). *)
Abbreviation dataset := (gmap Z record).

(** The exceptions the core can raise: a key absent from a dataset
    (df.loc[k, :]) and a tuple index out of range (f[i]). *)
Inductive error : Type := KeyError | IndexError.

Inductive result (A : Type) : Type :=
  | Ok (a : A)
  | Raise (e : error).
Global Arguments Ok {A} a.
Global Arguments Raise {A} e.

Global Instance result_ret : MRet result := λ A a, Ok a.
Global Instance result_bind : MBind result := λ A B f r,
  match r with
  | Ok a => f a
  | Raise e => Raise e
  end.

(** The two external collaborators of gen_prob_tuple:
    jellyfish.jaro_winkler_similarity and util.get_jw_category. *)
Class Similarity : Type := {
  jaro_winkler_similarity : string → string → Q;
  get_jw_category : Q → category
}.

(** ** gen_prob_tuple (lines 126-146) *)

(** df.loc[k, :] *)
Definition loc (df : dataset) (k : Z) : result record :=
  match df !! k with
  | Some r => Ok r
  | None => Raise KeyError
  end.

(** Iteration [i] of `for i in range(len(z))`: z[i] is in range by the
    loop bound, f[i] raises IndexError past the end of f. *)
Definition gen_prob_tuple_step `{Similarity} (z f : record)
    (acc : result signature) (i : nat) : result signature :=
  tpl ← acc;
  match z !! i with
  | Some zi =>
      match f !! i with
      | Some fi =>
          Ok (tpl ++ [get_jw_category (jaro_winkler_similarity zi fi)])
      | None => Raise IndexError
      end
  | None => Ok tpl
  end.

Definition gen_prob_tuple `{Similarity} (z_i f_i : Z)
    (zagat fodors : dataset) : result signature :=
  z ← loc zagat z_i;
  f ← loc fodors f_i;
  foldl (gen_prob_tuple_step z f) (Ok []) (seq 0 (length z)).

(** The category of one compared field (lines 144-145). *)
Definition field_category `{Similarity} (zi fi : string) : category :=
  get_jw_category (jaro_winkler_similarity zi fi).

(** ** compute_probabilities (lines 53-72) *)

(** 1 / len(df) *)
Definition unit_weight (df : list (Z * Z)) : Q :=
  1 / inject_Z (Z.of_nat (length df)).

(** The body of the loop for the row (z_i, f_i) = df.iloc[i, :]. *)
Definition compute_probabilities_step `{Similarity}
    (df : list (Z * Z)) (zagat fodors : dataset)
    (acc : result (gmap signature Q)) (row : Z * Z)
    : result (gmap signature Q) :=
  probs ← acc;
  tpl ← gen_prob_tuple row.1 row.2 zagat fodors;
  Ok (<[tpl := default 0 (probs !! tpl) + unit_weight df]> probs).

(** The rows of df are visited in order, i = 0 .. len(df) - 1. *)
Definition compute_probabilities `{Similarity} (df : list (Z * Z))
    (zagat fodors : dataset) : result (gmap signature Q) :=
  foldl (compute_probabilities_step df zagat fodors) (Ok ∅) df.

(** The sum of the masses of a distribution. *)
Definition total_mass (probs : gmap signature Q) : Q :=
  foldr Qplus 0 ((map_to_list probs).*2).

(** ** ordered_probabilities (lines 74-90) *)

(** The likelihood ratio of a probability tuple: match mass over unmatch
    mass, infinite when the unmatch mass is 0 and the match mass is not. *)
Inductive ratio : Type := InfiniteRatio | FiniteRatio (q : Q).

(** Modelled from the spec: util.sort_prob_tuples is not among the
    sources.  The ratio is match-mass / unmatch-mass when the unmatch-mass
    is positive; unmatch-mass = 0 with match-mass > 0 is the infinite
    ratio; the position of a tuple with both masses 0 is left open by the
    spec and is taken here to be that of ratio 0. *)
Definition likelihood_ratio (t : prob_tuple) : ratio :=
  if Qle_bool (unmatch_prob t) 0 then
    if Qle_bool (match_prob t) 0 then FiniteRatio 0 else InfiniteRatio
  else FiniteRatio (match_prob t / unmatch_prob t).

(** Descending order of ratios: [Lt] when the first ratio is the larger
    one, so that it comes first. *)
Definition ratio_compare (r1 r2 : ratio) : comparison :=
  match r1, r2 with
  | InfiniteRatio, InfiniteRatio => Eq
  | InfiniteRatio, FiniteRatio _ => Lt
  | FiniteRatio _, InfiniteRatio => Gt
  | FiniteRatio a, FiniteRatio b => (b ?= a)%Q
  end.

(** Signatures compared by value: lexicographically, categories in the
    order low < medium < high. *)
Fixpoint sig_compare (s1 s2 : signature) : comparison :=
  match s1, s2 with
  | [], [] => Eq
  | [], _ :: _ => Lt
  | _ :: _, [] => Gt
  | c1 :: s1', c2 :: s2' =>
      match (category_rank c1 ?= category_rank c2)%nat with
      | Eq => sig_compare s1' s2'
      | c => c
      end
  end.

(** Modelled from the spec: util.sort_prob_tuples is not among the
    sources.  Tuples are ordered by descending likelihood ratio, ties
    broken by signature value. *)
Definition rank_compare (t1 t2 : prob_tuple) : comparison :=
  match ratio_compare (likelihood_ratio t1) (likelihood_ratio t2) with
  | Eq => sig_compare (sim_of t1) (sim_of t2)
  | c => c
  end.

Definition ranks_before (t1 t2 : prob_tuple) : Prop :=
  rank_compare t1 t2 ≠ Gt.

Global Instance ranks_before_dec : RelDecision ranks_before.
Proof. intros t1 t2. unfold ranks_before. apply _. Defined.

(** Modelled from the spec: util.sort_prob_tuples is not among the
    sources; it returns the tuples sorted by [ranks_before] (Python's
    sorted is a merge sort). *)
Definition sort_prob_tuples (prob_tuples : list prob_tuple)
    : list prob_tuple :=
  merge_sort ranks_before prob_tuples.

(** (sim, mp.get(sim, 0), up.get(sim, 0)) *)
Definition prob_tuple_of (mp up : gmap signature Q) (sim : signature)
    : prob_tuple :=
  (sim, default 0 (mp !! sim), default 0 (up !! sim)).

(** Lines 88-90 for a given enumeration [sim_tpls] of the key set: Python
    does not fix the order in which list(set(...)) lists the elements. *)
Definition ordered_probabilities_from (sim_tpls : list signature)
    (mp up : gmap signature Q) : list prob_tuple :=
  sort_prob_tuples (prob_tuple_of mp up <$> sim_tpls).

Definition ordered_probabilities (mp up : gmap signature Q)
    : list prob_tuple :=
  ordered_probabilities_from (elements (dom mp ∪ dom up)) mp up.

(** s1 occurs at an earlier position than s2 in the ranked list. *)
Definition before (ranked : list prob_tuple) (s1 s2 : signature) : Prop :=
  ∃ i j t1 t2, (i < j)%nat ∧ ranked !! i = Some t1 ∧ ranked !! j = Some t2 ∧
               sim_of t1 = s1 ∧ sim_of t2 = s2.

(** The laws of a three-way comparison that make "not greater" a total
    preorder: swapping the arguments flips the answer, [Eq] is a
    congruence, and [Lt] is transitive. *)
Definition compare_laws {A : Type} (cmp : A → A → comparison) : Prop :=
  (∀ a b, cmp b a = CompOpp (cmp a b)) ∧
  (∀ a b c, cmp a b = Eq → cmp a c = cmp b c) ∧
  (∀ a b c, cmp a b = Lt → cmp b c = Lt → cmp a c = Lt).

(** ** put_labels (lines 93-123) *)

(** The loop state: the running sums [u] and [m] and the dictionary
    [labels]. *)
Record sweep_state : Type := SweepState {
  st_u : Q;
  st_m : Q;
  st_labels : gmap signature label
}.

Definition sweep_init : sweep_state := SweepState 0 0 ∅.

(** One iteration of the loop body, with t = ordered_probs[-i - 1] and
    h = ordered_probs[i] already fetched (lines 111-122). *)
Definition sweep_body (mu lambda_ : Q) (st : sweep_state)
    (t h : prob_tuple) : sweep_state :=
  let st1 :=
    if Qle_bool (st_m st + match_prob t) lambda_ then
      SweepState (st_u st) (st_m st + match_prob t)
        (if decide (st_labels st !! sim_of t = Some Match)
         then st_labels st
         else <[sim_of t := Unmatch]> (st_labels st))
    else SweepState (st_u st) lambda_ (st_labels st) in
  if Qle_bool (st_u st1 + unmatch_prob h) mu then
    SweepState (st_u st1 + unmatch_prob h) (st_m st1)
      (<[sim_of h := Match]> (st_labels st1))
  else
    SweepState mu (st_m st1)
      (<[sim_of h := default PossibleMatch (st_labels st1 !! sim_of h)]>
         (st_labels st1)).

(** Iteration [i] of `for i in range(len(ordered_probs))`.  For
    0 <= i < len the negative index -i - 1 denotes position len - 1 - i;
    both lookups succeed inside the loop, the last branch is never taken
    (see [put_labels_step_body]). *)
Definition put_labels_step (ordered_probs : list prob_tuple)
    (mu lambda_ : Q) (st : sweep_state) (i : nat) : sweep_state :=
  match ordered_probs !! (length ordered_probs - 1 - i)%nat,
        ordered_probs !! i with
  | Some t, Some h => sweep_body mu lambda_ st t h
  | _, _ => st
  end.

(** The state at the start of iteration [i]. *)
Definition put_labels_state (ordered_probs : list prob_tuple)
    (mu lambda_ : Q) (i : nat) : sweep_state :=
  foldl (put_labels_step ordered_probs mu lambda_) sweep_init (seq 0 i).

Definition put_labels (ordered_probs : list prob_tuple) (mu lambda_ : Q)
    : gmap signature label :=
  st_labels (put_labels_state ordered_probs mu lambda_ (length ordered_probs)).

(** The test of line 111 as evaluated at iteration [i]: the tail sweep
    reaches ordered_probs[-i - 1] within the bound lambda_. *)
Definition tail_test (ordered_probs : list prob_tuple) (mu lambda_ : Q)
    (i : nat) : bool :=
  match ordered_probs !! (length ordered_probs - 1 - i)%nat with
  | Some t =>
      Qle_bool (st_m (put_labels_state ordered_probs mu lambda_ i)
                + match_prob t) lambda_
  | None => false
  end.

(** The test of line 117 as evaluated at iteration [i] (the tail half of
    the iteration leaves [u] alone). *)
Definition head_test (ordered_probs : list prob_tuple) (mu lambda_ : Q)
    (i : nat) : bool :=
  match ordered_probs !! i with
  | Some h =>
      Qle_bool (st_u (put_labels_state ordered_probs mu lambda_ i)
                + unmatch_prob h) mu
  | None => false
  end.

(** label_dict.get(sig, 'possible match') of find_matches (lines 49-50). *)
Definition output_label (label_dict : gmap signature label)
    (sig : signature) : label :=
  default PossibleMatch (label_dict !! sig).

(** ** find_matches (lines 39-50), without the file input and output *)

(** Lines 39-42: the label dictionary built from the training pairs. *)
Definition label_dict_of `{Similarity} (match_ unmatch : list (Z * Z))
    (zagat fodors : dataset) (mu lambda_ : Q)
    : result (gmap signature label) :=
  match_prob_ ← compute_probabilities match_ zagat fodors;
  unmatch_prob_ ← compute_probabilities unmatch zagat fodors;
  Ok (put_labels (ordered_probabilities match_prob_ unmatch_prob_) mu lambda_).

(** The label written for the pair (i, j) (lines 49-50). *)
Definition row_label `{Similarity} (label_dict : gmap signature label)
    (i j : Z) (zagat fodors : dataset) : result label :=
  tpl ← gen_prob_tuple i j zagat fodors;
  Ok (output_label label_dict tpl).

(** ** The two sweeps, seen one at a time *)

(** A greedy sweep over a list of masses against a bound: the flag of an
    element tells whether the running sum plus its mass stays within the
    bound (the tests of lines 111 and 117); the running sum is advanced
    on success and set to the bound otherwise (lines 112/116, 118/121). *)
Fixpoint sweep (bound acc : Q) (masses : list Q) : list bool :=
  match masses with
  | [] => []
  | x :: xs =>
      if Qle_bool (acc + x) bound
      then true :: sweep bound (acc + x) xs
      else false :: sweep bound bound xs
  end.

(** The running sum once the sweep has passed over [masses]. *)
Fixpoint sweep_acc (bound acc : Q) (masses : list Q) : Q :=
  match masses with
  | [] => acc
  | x :: xs =>
      if Qle_bool (acc + x) bound
      then sweep_acc bound (acc + x) xs
      else sweep_acc bound bound xs
  end.

(** The signatures whose flag is set. *)
Fixpoint reached (flags : list bool) (sigs : list signature)
    : gset signature :=
  match flags, sigs with
  | b :: bs, s :: ss => (if b then {[ s ]} else ∅) ∪ reached bs ss
  | _, _ => ∅
  end.

(** The labelling described by two independent sweeps: the head sweep
    accumulates [head_mass] against mu and gives 'match', the tail sweep
    accumulates [tail_mass] against lambda_ and gives 'unmatch'; 'match'
    takes precedence over 'unmatch', and every other signature of the list
    is 'possible match'. *)
Definition two_sweeps (head_mass tail_mass : prob_tuple → Q)
    (ordered_probs : list prob_tuple) (mu lambda_ : Q)
    : gmap signature label :=
  gset_to_gmap Match
    (reached (sweep mu 0 (head_mass <$> ordered_probs))
             (sim_of <$> ordered_probs)) ∪
  (gset_to_gmap Unmatch
    (reached (sweep lambda_ 0 (tail_mass <$> reverse ordered_probs))
             (sim_of <$> reverse ordered_probs)) ∪
   gset_to_gmap PossibleMatch (list_to_set (sim_of <$> ordered_probs))).

(** The loop of put_labels over the explicit list of fetched pairs
    (ordered_probs[-i - 1], ordered_probs[i]). *)
Definition sweep_run (mu lambda_ : Q) (st : sweep_state)
    (ps : list (prob_tuple * prob_tuple)) : sweep_state :=
  foldl (λ st p, sweep_body mu lambda_ st p.1 p.2) st ps.

(** How the label of a signature evolves over a run: [cur] is its label
    before, [hh] / [th] tell whether the head / tail sweep reaches it,
    [hm] whether it occurs at the head side at all. *)
Definition merge_label (cur : option label) (hh th hm : bool)
    : option label :=
  if hh then Some Match else
  match cur with
  | Some Match => Some Match
  | Some Unmatch => Some Unmatch
  | Some PossibleMatch => if th then Some Unmatch else Some PossibleMatch
  | None => if th then Some Unmatch
            else if hm then Some PossibleMatch else None
  end.

(** Number of signatures carrying the label [lab]. *)
Definition count_label (lab : label) (labels : gmap signature label) : nat :=
  size (filter (λ kv, kv.2 = lab) labels).

(** A signature is touched by the head (match) sweep when the test of
    line 117 succeeds at one of its positions, and by the tail (unmatch)
    sweep when the test of line 111 succeeds at one of its positions. *)
Definition head_touched (ordered_probs : list prob_tuple) (mu lambda_ : Q)
    (s : signature) : Prop :=
  ∃ i h, ordered_probs !! i = Some h ∧ sim_of h = s ∧
         head_test ordered_probs mu lambda_ i = true.

Definition tail_touched (ordered_probs : list prob_tuple) (mu lambda_ : Q)
    (s : signature) : Prop :=
  ∃ i t, (i < length ordered_probs)%nat ∧
         ordered_probs !! (length ordered_probs - 1 - i)%nat = Some t ∧
         sim_of t = s ∧ tail_test ordered_probs mu lambda_ i = true.

(** ** Concrete inputs used in examples *)

Definition ex_hh : signature := [high; high].
Definition ex_lh : signature := [low; high].
Definition ex_ranked : list prob_tuple := [(ex_hh, 1, 0); (ex_lh, 0, 1)].

Definition ex_single : list prob_tuple := [(ex_hh, 1, 0)].
Definition ex_both : list prob_tuple := [(ex_hh, 1 # 4, 1 # 4)].

Definition ex_positive : list prob_tuple :=
  [(ex_hh, 1 # 2, 1 # 2); (ex_lh, 1 # 2, 1 # 2)].
Definition ex_mixed : list prob_tuple :=
  [(ex_hh, 1 # 2, 1 # 4); (ex_lh, 1 # 4, 1 # 2)].

(** A stand-in for the similarity metric on the strings of the examples:
    identical strings have similarity 1 and category high; the other
    strings used below share no character, similarity 0, category low. *)
Definition ex_similarity : Similarity := {|
  jaro_winkler_similarity := λ a b, if String.eqb a b then 1 else 0;
  get_jw_category := λ q, if Qle_bool 1 q then high else low
|}.

Definition ex_zagat : dataset :=
  {[ 1%Z := ["spago"; "la"] ]}.
Definition ex_fodors : dataset :=
  {[ 1%Z := ["spago"; "la"; "8795 sunset blvd"];
     2%Z := ["spago"];
     3%Z := ["celine"; "la"] ]}.

(** Training pairs over the example datasets. *)
Definition ex_pairs : list (Z * Z) := [(1, 1); (1, 3); (1, 3); (1, 1)]%Z.

(** The distributions compute_probabilities returns on [ex_pairs] and on
    the single pair (1, 3): the sums are left as the additions produce
    them (1/4 + 1/4 is 8/16). *)
Definition ex_match_probs : gmap signature Q :=
  {[ ex_hh := 8 # 16; ex_lh := 8 # 16 ]}.
Definition ex_unmatch_probs : gmap signature Q := {[ ex_lh := 1 ]}.


(** ** Training signatures, tallies and sums *)

(** The signatures of the training pairs in row order, or the error of
    the first pair for which gen_prob_tuple raises. *)
Fixpoint pair_signatures `{Similarity} (df : list (Z * Z))
    (zagat fodors : dataset) : result (list signature) :=
  match df with
  | [] => Ok []
  | row :: df' =>
      tpl ← gen_prob_tuple row.1 row.2 zagat fodors;
      tpls ← pair_signatures df' zagat fodors;
      Ok (tpl :: tpls)
  end.

(** Number of occurrences of a signature. *)
Definition count_sig (s : signature) (sigs : list signature) : nat :=
  length (filter (λ x, x = s) sigs).

(** Line 71 for one signature: probs[tpl] = probs.get(tpl, 0) + w. *)
Definition accumulate (w : Q) (probs : gmap signature Q) (tpl : signature)
    : gmap signature Q :=
  <[tpl := default 0 (probs !! tpl) + w]> probs.

Global Instance error_eq_dec : EqDecision error.
Proof. solve_decision. Defined.

Global Instance result_eq_dec `{EqDecision A} : EqDecision (result A).
Proof. solve_decision. Defined.

(** Number of training pairs whose signature is [s]. *)
Definition signature_count `{Similarity} (s : signature)
    (df : list (Z * Z)) (zagat fodors : dataset) : nat :=
  length (filter (λ row, gen_prob_tuple row.1 row.2 zagat fodors = Ok s) df).

(** ** find_matches: the output loop (lines 43-50) *)

(** A DataFrame as find_matches uses it: named columns and rows in file
    order, each row keyed by its index value.  Index values are taken to
    be unique, as .loc returns a single row only then; of rows sharing a
    key [frame_data] keeps the first. *)
Record frame : Type := Frame {
  frame_columns : list string;
  frame_rows : list (Z * record)
}.

(** df.index *)
Definition frame_index (fr : frame) : list Z := (frame_rows fr).*1.

(** The rows by key, as df.loc[k, :] reads them. *)
Definition frame_data (fr : frame) : dataset := list_to_map (frame_rows fr).

(** df.loc[k, col]: KeyError for an absent key or column.  (A DataFrame
    row has one value per column, so the position of a present column is
    always in range.) *)
Definition loc_col (fr : frame) (k : Z) (col : string) : result string :=
  r ← loc (frame_data fr) k;
  match list_find (λ c, c = col) (frame_columns fr) with
  | Some (n, _) =>
      match r !! n with
      | Some v => Ok v
      | None => Raise KeyError
      end
  | None => Raise KeyError
  end.

(** zagat.loc[i, 'city'] != fodors.loc[j, 'city'] *)
Definition city_differs (zagat fodors : frame) (i j : Z) : result bool :=
  zc ← loc_col zagat i "city";
  fc ← loc_col fodors j "city";
  Ok (negb (String.eqb zc fc)).

(** A row of the output file: (i, j, label). *)
Abbreviation out_row := (Z * Z * label)%type.

(** The body of the inner loop (lines 47-50) for the pair (i, j): [None]
    when the pair is skipped by `continue`, the row written otherwise.
    The city test is evaluated only when block_on_city is set. *)
Definition write_pair `{Similarity} (block_on_city : bool)
    (label_dict : gmap signature label) (zagat fodors : frame)
    (i j : Z) : result (option out_row) :=
  skip ← (if block_on_city then city_differs zagat fodors i j else Ok false);
  if (skip : bool) then Ok None
  else
    lab ← row_label label_dict i j (frame_data zagat) (frame_data fodors);
    Ok (Some (i, j, lab)).

(** The state of the writer: the rows written so far and the exception
    that ended the loops, if any. *)
Abbreviation writer_state := (list out_row * option error)%type.

Definition write_step `{Similarity} (block_on_city : bool)
    (label_dict : gmap signature label) (zagat fodors : frame)
    (i : Z) (st : writer_state) (j : Z) : writer_state :=
  match st.2 with
  | Some _ => st
  | None =>
      match write_pair block_on_city label_dict zagat fodors i j with
      | Ok None => st
      | Ok (Some r) => (st.1 ++ [r], None)
      | Raise e => (st.1, Some e)
      end
  end.

(** Lines 45-50: for i in zagat.index: for j in fodors.index: ... *)
Definition write_rows `{Similarity} (block_on_city : bool)
    (label_dict : gmap signature label) (zagat fodors : frame)
    : writer_state :=
  foldl (λ st i,
           foldl (write_step block_on_city label_dict zagat fodors i) st
                 (frame_index fodors))
        ([], None) (frame_index zagat).

(** The pairs (i, j) in the order the two loops visit them. *)
Definition index_pairs (zagat fodors : frame) : list (Z * Z) :=
  i ← frame_index zagat; (λ j, (i, j)) <$> frame_index fodors.

(** The loop body run over a list of pairs. *)
Definition write_run `{Similarity} (block_on_city : bool)
    (label_dict : gmap signature label) (zagat fodors : frame)
    (st : writer_state) (ps : list (Z * Z)) : writer_state :=
  foldl (λ st p, write_step block_on_city label_dict zagat fodors p.1 st p.2)
        st ps.

(** find_matches from line 39 on, the four tables given: an exception
    while the label dictionary is built leaves no output; afterwards the
    result is the state of the writer. *)
Definition find_matches `{Similarity} (match_ unmatch : list (Z * Z))
    (zagat fodors : frame) (mu lambda_ : Q) (block_on_city : bool)
    : result writer_state :=
  label_dict ← label_dict_of match_ unmatch (frame_data zagat)
                  (frame_data fodors) mu lambda_;
  Ok (write_rows block_on_city label_dict zagat fodors).

(** Frames for the examples: two Zagat rows, three Fodor's rows. *)
Definition ex_zagat_frame : frame :=
  Frame ["restaurant name"; "city"]
        [(1%Z, ["spago"; "la"]); (2%Z, ["celine"; "ny"])].
Definition ex_fodors_frame : frame :=
  Frame ["restaurant name"; "city"]
        [(1%Z, ["spago"; "la"]); (2%Z, ["celine"; "la"]);
         (3%Z, ["celine"; "ny"])].

(** A second table that lacks the city column: its records are shorter
    than those of [ex_zagat_frame]. *)
Definition ex_fodors_names : frame :=
  Frame ["restaurant name"] [(1%Z, ["spago"]); (2%Z, ["celine"])].

(** The label dictionary for the known match (1, 1) and the known unmatch
    (1, 2) of the example frames, with mu = lambda_ = 1/2. *)
Definition ex_label_dict : gmap signature label :=
  {[ ex_hh := Match; ex_lh := Unmatch ]}.

(** The rows find_matches writes for the example frames, without and with
    blocking on the city. *)
Definition ex_rows : list out_row :=
  [(1, 1, Match); (1, 2, Unmatch); (1, 3, PossibleMatch);
   (2, 1, PossibleMatch); (2, 2, PossibleMatch); (2, 3, Match)]%Z.
Definition ex_rows_blocked : list out_row :=
  [(1, 1, Match); (1, 2, Unmatch); (2, 3, Match)]%Z.


(** ** The same code over a given arithmetic *)

(** What put_labels and compute_probabilities do with numbers: the
    constant 0, [+] and [<=], and the quotient 1 / len(df) of line 71. *)
Record arith : Type := Arith {
  a_num : Type;
  a_zero : a_num;
  a_add : a_num → a_num → a_num;
  a_leb : a_num → a_num → bool;
  a_weight : nat → a_num
}.

(** Exact rational arithmetic: the arithmetic of [put_labels] and
    [compute_probabilities] above. *)
Definition exact : arith :=
  Arith Q 0 Qplus Qle_bool (λ n, 1 / inject_Z (Z.of_nat n)).

(** An integer as a double; no rounding below 2^53. *)
Fixpoint float_of_pos (p : positive) : float :=
  match p with
  | xH => 1
  | xO p' => 2 * float_of_pos p'
  | xI p' => 2 * float_of_pos p' + 1
  end%float.

Definition float_of_nat (n : nat) : float :=
  match N.of_nat n with
  | N0 => 0%float
  | Npos p => float_of_pos p
  end.

(** IEEE 754 binary64 with round to nearest even: the arithmetic of
    Python's float, in which the module runs. *)
Definition binary64 : arith :=
  Arith float 0%float PrimFloat.add PrimFloat.leb
        (λ n, (1 / float_of_nat n)%float).

(** The laws of [<=] and [+] that the properties below rest on.  Both
    arithmetics have them: a rounded sum of two numbers that are not
    negative is not below either of them, as rounding is monotone. *)
Record arith_laws (A : arith) : Prop := ArithLaws {
  a_leb_zero : a_leb A (a_zero A) (a_zero A) = true;
  a_leb_trans x y z :
    a_leb A x y = true → a_leb A y z = true → a_leb A x z = true;
  a_add_le_l x y :
    a_leb A (a_zero A) x = true → a_leb A (a_zero A) y = true →
    a_leb A x (a_add A x y) = true;
  a_add_le_r x y :
    a_leb A (a_zero A) x = true → a_leb A (a_zero A) y = true →
    a_leb A y (a_add A x y) = true
}.

Section on_arith.
Context (A : arith).

(** (sim, match probability, unmatch probability) *)
Definition prob_tuple_on : Type := (signature * a_num A * a_num A)%type.

Definition sim_on (p : prob_tuple_on) : signature := p.1.1.
Definition match_on (p : prob_tuple_on) : a_num A := p.1.2.
Definition unmatch_on (p : prob_tuple_on) : a_num A := p.2.

Record sweep_state_on : Type := SweepStateOn {
  on_u : a_num A;
  on_m : a_num A;
  on_labels : gmap signature label
}.

Definition sweep_init_on : sweep_state_on :=
  SweepStateOn (a_zero A) (a_zero A) ∅.

(** Lines 111-122, as [sweep_body]. *)
Definition sweep_body_on (mu lambda_ : a_num A) (st : sweep_state_on)
    (t h : prob_tuple_on) : sweep_state_on :=
  let st1 :=
    if a_leb A (a_add A (on_m st) (match_on t)) lambda_ then
      SweepStateOn (on_u st) (a_add A (on_m st) (match_on t))
        (if decide (on_labels st !! sim_on t = Some Match)
         then on_labels st
         else <[sim_on t := Unmatch]> (on_labels st))
    else SweepStateOn (on_u st) lambda_ (on_labels st) in
  if a_leb A (a_add A (on_u st1) (unmatch_on h)) mu then
    SweepStateOn (a_add A (on_u st1) (unmatch_on h)) (on_m st1)
      (<[sim_on h := Match]> (on_labels st1))
  else
    SweepStateOn mu (on_m st1)
      (<[sim_on h := default PossibleMatch (on_labels st1 !! sim_on h)]>
         (on_labels st1)).

(** Iteration [i] of the loop of line 110, as [put_labels_step]. *)
Definition put_labels_step_on (ordered_probs : list prob_tuple_on)
    (mu lambda_ : a_num A) (st : sweep_state_on) (i : nat)
    : sweep_state_on :=
  match ordered_probs !! (length ordered_probs - 1 - i)%nat,
        ordered_probs !! i with
  | Some t, Some h => sweep_body_on mu lambda_ st t h
  | _, _ => st
  end.

(** The state at the start of iteration [i]. *)
Definition put_labels_state_on (ordered_probs : list prob_tuple_on)
    (mu lambda_ : a_num A) (i : nat) : sweep_state_on :=
  foldl (put_labels_step_on ordered_probs mu lambda_) sweep_init_on
        (seq 0 i).

(** Lines 107-123, as [put_labels]. *)
Definition put_labels_on (ordered_probs : list prob_tuple_on)
    (mu lambda_ : a_num A) : gmap signature label :=
  on_labels
    (put_labels_state_on ordered_probs mu lambda_ (length ordered_probs)).

(** The test of line 111 as evaluated at iteration [i]. *)
Definition tail_test_on (ordered_probs : list prob_tuple_on)
    (mu lambda_ : a_num A) (i : nat) : bool :=
  match ordered_probs !! (length ordered_probs - 1 - i)%nat with
  | Some t =>
      a_leb A (a_add A (on_m (put_labels_state_on ordered_probs mu lambda_ i))
                       (match_on t)) lambda_
  | None => false
  end.

(** The test of line 117 as evaluated at iteration [i]. *)
Definition head_test_on (ordered_probs : list prob_tuple_on)
    (mu lambda_ : a_num A) (i : nat) : bool :=
  match ordered_probs !! i with
  | Some h =>
      a_leb A (a_add A (on_u (put_labels_state_on ordered_probs mu lambda_ i))
                       (unmatch_on h)) mu
  | None => false
  end.

(** One sweep taken alone, as [sweep] and [sweep_acc]. *)
Fixpoint sweep_on (bound acc : a_num A) (masses : list (a_num A))
    : list bool :=
  match masses with
  | [] => []
  | x :: xs =>
      if a_leb A (a_add A acc x) bound
      then true :: sweep_on bound (a_add A acc x) xs
      else false :: sweep_on bound bound xs
  end.

Fixpoint sweep_acc_on (bound acc : a_num A) (masses : list (a_num A))
    : a_num A :=
  match masses with
  | [] => acc
  | x :: xs =>
      if a_leb A (a_add A acc x) bound
      then sweep_acc_on bound (a_add A acc x) xs
      else sweep_acc_on bound bound xs
  end.

Definition sweep_run_on (mu lambda_ : a_num A) (st : sweep_state_on)
    (ps : list (prob_tuple_on * prob_tuple_on)) : sweep_state_on :=
  foldl (λ st p, sweep_body_on mu lambda_ st p.1 p.2) st ps.

(** Line 71, as [accumulate]. *)
Definition accumulate_on (w : a_num A) (probs : gmap signature (a_num A))
    (tpl : signature) : gmap signature (a_num A) :=
  <[tpl := a_add A (default (a_zero A) (probs !! tpl)) w]> probs.

(** Lines 68-71, as [compute_probabilities_step]. *)
Definition compute_probabilities_step_on `{Similarity}
    (df : list (Z * Z)) (zagat fodors : dataset)
    (acc : result (gmap signature (a_num A))) (row : Z * Z)
    : result (gmap signature (a_num A)) :=
  probs ← acc;
  tpl ← gen_prob_tuple row.1 row.2 zagat fodors;
  Ok (accumulate_on (a_weight A (length df)) probs tpl).

(** Lines 66-72, as [compute_probabilities]. *)
Definition compute_probabilities_on `{Similarity} (df : list (Z * Z))
    (zagat fodors : dataset) : result (gmap signature (a_num A)) :=
  foldl (compute_probabilities_step_on df zagat fodors) (Ok ∅) df.

(** The masses of a distribution added up. *)
Definition total_mass_on (probs : gmap signature (a_num A)) : a_num A :=
  foldr (a_add A) (a_zero A) ((map_to_list probs).*2).

(** The mass of a bucket that line 71 has added the weight [w] to [k]
    times, starting from probs.get(tpl, 0) = 0. *)
Definition accumulated_on (k : nat) (w : a_num A) : a_num A :=
  Nat.iter k (λ q, a_add A q w) (a_zero A).
End on_arith.

Arguments sim_on {A} p.
Arguments match_on {A} p.
Arguments unmatch_on {A} p.
Arguments on_u {A} s.
Arguments on_m {A} s.
Arguments on_labels {A} s.

(** Evaluating [f] at [q] once [q] itself is evaluated: the same value,
    obtained without building up a chain of pending additions. *)
Definition forced (f : float → float) (q : float) : float :=
  if PrimFloat.is_nan q then f q else f q.

(** Ranked lists of doubles, in decreasing order of the ratio of the
    match-mass to the unmatch-mass, as put_labels gets them: the
    unmatch-masses 1/2 + 2^-53, 2^-54, 2^-54 from the head, and, in
    [ex_ties_tail], the match-masses 1/2 + 2^-53, 2^-54, 2^-54 from the
    tail. *)
Definition ex_ties : list (prob_tuple_on binary64) :=
  [([high], 1, 0x1.0000000000001p-1);
   ([medium], 0x1p-54, 0x1p-54);
   ([low], 0x1p-55, 0x1p-54)]%float.

Definition ex_ties_tail : list (prob_tuple_on binary64) :=
  [([high], 0x1p-54, 0x1p-56);
   ([medium], 0x1p-54, 0x1p-55);
   ([low], 0x1.0000000000001p-1, 1)]%float.

(** The distribution compute_probabilities returns in doubles for three
    training pairs, two of the signature [ex_hh] and one of [ex_lh]:
    1/3 + 1/3 and 1/3 as rounded. *)
Definition ex_thirds : gmap signature (a_num binary64) :=
  {[ ex_hh := 0x1.5555555555555p-1%float;
     ex_lh := 0x1.5555555555555p-2%float ]}.

(** ** Properties of put_labels *)

Section put_labels_facts.
Implicit Types (l : list prob_tuple) (mu : Q) (s : signature).
Implicit Types (st : sweep_state) (ps : list (prob_tuple * prob_tuple)).

Lemma put_labels_step_body l mu lambda_ st i :
  (i < length l)%nat →
  ∃ t h, reverse l !! i = Some t ∧ l !! i = Some h ∧
         put_labels_step l mu lambda_ st i = sweep_body mu lambda_ st t h.
Proof.
  intros Hi. unfold put_labels_step.
  destruct (lookup_lt_is_Some_2 l i Hi) as [h Hh].
  destruct (lookup_lt_is_Some_2 l (length l - 1 - i)%nat) as [t Ht]; [lia|].
  exists t, h. rewrite Ht, Hh. split_and!; [|done..].
  rewrite reverse_lookup by done. rewrite <- Ht. f_equal. lia.
Qed.

Lemma put_labels_state_run l mu lambda_ k :
  (k ≤ length l)%nat →
  put_labels_state l mu lambda_ k =
    sweep_run mu lambda_ sweep_init (take k (zip (reverse l) l)).
Proof.
  unfold put_labels_state, sweep_run. induction k as [|k IH]; intros Hk.
  { done. }
  rewrite seq_S, foldl_app, IH by lia. simpl.
  destruct (put_labels_step_body l mu lambda_
    (foldl (λ st p, sweep_body mu lambda_ st p.1 p.2) sweep_init
           (take k (zip (reverse l) l))) k) as (t & h & Ht & Hh & ->); [lia|].
  rewrite (take_S_r _ k (t, h)), foldl_app; [done|].
  apply lookup_zip_with_Some. eauto.
Qed.

Lemma put_labels_run l mu lambda_ :
  put_labels l mu lambda_ =
    st_labels (sweep_run mu lambda_ sweep_init (zip (reverse l) l)).
Proof.
  unfold put_labels. rewrite put_labels_state_run by done.
  rewrite take_ge; [done|].
  rewrite length_zip_with, length_reverse. lia.
Qed.

Lemma sweep_run_u mu lambda_ st ps :
  st_u (sweep_run mu lambda_ st ps) =
    sweep_acc mu (st_u st) ((unmatch_prob ∘ snd) <$> ps).
Proof.
  revert st. induction ps as [|[t h] ps IH]; intros st; [done|].
  unfold sweep_run in *. simpl. rewrite IH. unfold sweep_body.
  destruct (Qle_bool (st_m st + _) _); simpl;
    destruct (Qle_bool (st_u st + _) _); done.
Qed.

Lemma sweep_run_m mu lambda_ st ps :
  st_m (sweep_run mu lambda_ st ps) =
    sweep_acc lambda_ (st_m st) ((match_prob ∘ fst) <$> ps).
Proof.
  revert st. induction ps as [|[t h] ps IH]; intros st; [done|].
  unfold sweep_run in *. simpl. rewrite IH. unfold sweep_body.
  destruct (Qle_bool (st_m st + _) _); simpl;
    destruct (Qle_bool (st_u st + _) _); done.
Qed.

Lemma sweep_lookup bound acc xs i x :
  xs !! i = Some x →
  sweep bound acc xs !! i =
    Some (Qle_bool (sweep_acc bound acc (take i xs) + x) bound).
Proof.
  revert acc i. induction xs as [|y xs IH]; intros acc [|i] Hx;
    simplify_eq/=.
  - by destruct (Qle_bool (acc + x) bound).
  - destruct (Qle_bool (acc + y) bound); simpl; by apply IH.
Qed.

Lemma elem_of_reached_cons (b : bool) bs s0 ss s :
  bool_decide (s ∈ reached (b :: bs) (s0 :: ss)) =
    (b && bool_decide (s = s0)) || bool_decide (s ∈ reached bs ss).
Proof.
  simpl. destruct b; simpl; repeat case_bool_decide; try done; set_solver.
Qed.

Lemma elem_of_reached flags sigs s :
  s ∈ reached flags sigs ↔
    ∃ i, flags !! i = Some true ∧ sigs !! i = Some s.
Proof.
  revert sigs. induction flags as [|b bs IH]; intros [|s0 ss]; simpl.
  1-3: split; [set_solver|]; intros (i & H1 & H2); by destruct i.
  rewrite elem_of_union, IH. split.
  - intros [Hs|(i & H1 & H2)].
    + destruct b; [|set_solver]. exists 0%nat. set_solver.
    + by exists (S i).
  - intros ([|i] & H1 & H2); simplify_eq/=; [left; set_solver|].
    right. eauto.
Qed.

Lemma sweep_body_labels mu lambda_ st t h s :
  st_labels (sweep_body mu lambda_ st t h) !! s =
    merge_label (st_labels st !! s)
      (Qle_bool (st_u st + unmatch_prob h) mu && bool_decide (s = sim_of h))
      (Qle_bool (st_m st + match_prob t) lambda_
         && bool_decide (s = sim_of t))
      (bool_decide (s = sim_of h)).
Proof.
  unfold sweep_body, merge_label.
  generalize (sim_of t) (sim_of h) (st_labels st). intros a b L.
  destruct (Qle_bool (st_m st + match_prob t) lambda_); simpl;
    destruct (Qle_bool (st_u st + unmatch_prob h) mu); simpl;
    destruct (decide (s = b)) as [Hb|Hb], (decide (s = a)) as [Ha|Ha];
    subst;
    rewrite ?bool_decide_eq_true_2, ?bool_decide_eq_false_2 by done;
    simpl; repeat case_decide;
    rewrite ?lookup_insert_eq, ?lookup_insert_ne by done;
    rewrite ?lookup_insert_eq, ?lookup_insert_ne by done;
    try done;
    repeat match goal with
           | |- context [L !! ?k] => destruct (L !! k) as [[]|] eqn:?
           end;
    simplify_eq/=; rewrite ?bool_decide_eq_true_2 by done; done.
Qed.

Lemma merge_label_step cur hh1 th1 hm1 hh2 th2 hm2 :
  merge_label (merge_label cur hh1 th1 hm1) hh2 th2 hm2 =
    merge_label cur (hh1 || hh2) (th1 || th2) (hm1 || hm2).
Proof.
  by destruct cur as [[]|], hh1, th1, hm1, hh2, th2, hm2.
Qed.

Lemma bool_decide_elem_of_cons s s0 (ss : list signature) :
  bool_decide (s ∈ s0 :: ss) = bool_decide (s = s0) || bool_decide (s ∈ ss).
Proof. repeat case_bool_decide; try done; set_solver. Qed.

Lemma sweep_run_labels mu lambda_ st ps s :
  st_labels (sweep_run mu lambda_ st ps) !! s =
    merge_label (st_labels st !! s)
      (bool_decide (s ∈ reached
         (sweep mu (st_u st) ((unmatch_prob ∘ snd) <$> ps))
         ((sim_of ∘ snd) <$> ps)))
      (bool_decide (s ∈ reached
         (sweep lambda_ (st_m st) ((match_prob ∘ fst) <$> ps))
         ((sim_of ∘ fst) <$> ps)))
      (bool_decide (s ∈ (sim_of ∘ snd) <$> ps)).
Proof.
  revert st. induction ps as [|[t h] ps IH]; intros st.
  { simpl. destruct (st_labels st !! s) as [[]|]; by repeat case_bool_decide;
      try set_solver. }
  change (sweep_run mu lambda_ st ((t, h) :: ps))
    with (sweep_run mu lambda_ (sweep_body mu lambda_ st t h) ps).
  rewrite IH, sweep_body_labels, merge_label_step. clear IH.
  rewrite !fmap_cons, bool_decide_elem_of_cons. simpl.
  assert (st_u (sweep_body mu lambda_ st t h) =
          if Qle_bool (st_u st + unmatch_prob h) mu
          then st_u st + unmatch_prob h else mu) as ->.
  { unfold sweep_body. destruct (Qle_bool (st_m st + _) _); simpl;
      by destruct (Qle_bool (st_u st + _) _). }
  assert (st_m (sweep_body mu lambda_ st t h) =
          if Qle_bool (st_m st + match_prob t) lambda_
          then st_m st + match_prob t else lambda_) as ->.
  { unfold sweep_body. destruct (Qle_bool (st_m st + _) _); simpl;
      by destruct (Qle_bool (st_u st + _) _). }
  f_equal.
  - destruct (Qle_bool (st_u st + unmatch_prob h) mu);
      by rewrite elem_of_reached_cons.
  - destruct (Qle_bool (st_m st + match_prob t) lambda_);
      by rewrite elem_of_reached_cons.
Qed.

Lemma fmap_zip_fst {A B C} (f : A → C) (xs : list A) (ys : list B) :
  length xs = length ys → (f ∘ fst) <$> zip xs ys = f <$> xs.
Proof. intros. by rewrite list_fmap_compose, fst_zip by lia. Qed.

Lemma fmap_zip_snd {A B C} (f : B → C) (xs : list A) (ys : list B) :
  length xs = length ys → (f ∘ snd) <$> zip xs ys = f <$> ys.
Proof. intros. by rewrite list_fmap_compose, snd_zip by lia. Qed.

(** The label of every signature after put_labels, by the two sweeps
    taken separately. *)
Lemma put_labels_lookup l mu lambda_ s :
  put_labels l mu lambda_ !! s =
    if decide (s ∈ reached (sweep mu 0 (unmatch_prob <$> l)) (sim_of <$> l))
    then Some Match
    else if decide (s ∈ reached
                (sweep lambda_ 0 (match_prob <$> reverse l))
                (sim_of <$> reverse l))
    then Some Unmatch
    else if decide (s ∈ sim_of <$> l) then Some PossibleMatch else None.
Proof.
  rewrite put_labels_run, sweep_run_labels. simpl.
  rewrite !fmap_zip_fst, !fmap_zip_snd by apply length_reverse.
  rewrite lookup_empty. unfold merge_label.
  repeat case_decide; repeat case_bool_decide; done.
Qed.

Lemma two_sweeps_lookup hm tm l mu lambda_ s :
  two_sweeps hm tm l mu lambda_ !! s =
    if decide (s ∈ reached (sweep mu 0 (hm <$> l)) (sim_of <$> l))
    then Some Match
    else if decide (s ∈ reached (sweep lambda_ 0 (tm <$> reverse l))
                                (sim_of <$> reverse l))
    then Some Unmatch
    else if decide (s ∈ sim_of <$> l) then Some PossibleMatch else None.
Proof.
  unfold two_sweeps.
  rewrite !lookup_union, !lookup_gset_to_gmap.
  repeat case_decide; repeat case_guard; simpl; try done;
    exfalso; set_solver.
Qed.

Lemma head_test_sweep l mu lambda_ i :
  (i < length l)%nat →
  sweep mu 0 (unmatch_prob <$> l) !! i = Some (head_test l mu lambda_ i).
Proof.
  intros Hi. unfold head_test.
  destruct (lookup_lt_is_Some_2 l i Hi) as [h Hh]. rewrite Hh.
  rewrite (sweep_lookup _ _ _ _ (unmatch_prob h))
    by (by rewrite list_lookup_fmap, Hh).
  rewrite put_labels_state_run, sweep_run_u by lia. simpl.
  rewrite <- fmap_take, zip_with_take, fmap_zip_snd; [done|].
  rewrite !length_take, length_reverse. done.
Qed.

Lemma tail_test_sweep l mu lambda_ i :
  (i < length l)%nat →
  sweep lambda_ 0 (match_prob <$> reverse l) !! i =
    Some (tail_test l mu lambda_ i).
Proof.
  intros Hi. unfold tail_test.
  destruct (put_labels_step_body l mu lambda_ sweep_init i Hi)
    as (t & h & Ht & _ & _).
  assert (l !! (length l - 1 - i)%nat = Some t) as ->.
  { rewrite <- Ht, reverse_lookup by done. f_equal. lia. }
  rewrite (sweep_lookup _ _ _ _ (match_prob t))
    by (by rewrite list_lookup_fmap, Ht).
  rewrite put_labels_state_run, sweep_run_m by lia. simpl.
  rewrite <- fmap_take, zip_with_take, fmap_zip_fst; [done|].
  rewrite !length_take, length_reverse. done.
Qed.

Lemma head_touched_reached l mu lambda_ s :
  head_touched l mu lambda_ s ↔
    s ∈ reached (sweep mu 0 (unmatch_prob <$> l)) (sim_of <$> l).
Proof.
  rewrite elem_of_reached. unfold head_touched. split.
  - intros (i & h & Hh & <- & Ht). exists i.
    rewrite (head_test_sweep l mu lambda_), Ht, list_lookup_fmap, Hh;
      eauto using lookup_lt_Some.
  - intros (i & Hf & Hs). rewrite list_lookup_fmap in Hs.
    destruct (l !! i) as [h|] eqn:Hh; simplify_eq/=.
    exists i, h.
    rewrite (head_test_sweep l mu lambda_) in Hf by eauto using lookup_lt_Some.
    by simplify_eq.
Qed.

Lemma tail_touched_reached l mu lambda_ s :
  tail_touched l mu lambda_ s ↔
    s ∈ reached (sweep lambda_ 0 (match_prob <$> reverse l))
                (sim_of <$> reverse l).
Proof.
  rewrite elem_of_reached. unfold tail_touched.
  assert (∀ i, (i < length l)%nat →
            reverse l !! i = l !! (length l - 1 - i)%nat) as Hrev.
  { intros i Hi. rewrite reverse_lookup by done. f_equal. lia. }
  split.
  - intros (i & t & Hi & Ht & <- & Hb). exists i.
    by rewrite (tail_test_sweep l mu), Hb, list_lookup_fmap, Hrev, Ht.
  - intros (i & Hf & Hs). rewrite list_lookup_fmap in Hs.
    destruct (reverse l !! i) as [t|] eqn:Ht; simplify_eq/=.
    assert (i < length l)%nat as Hi.
    { apply lookup_lt_Some in Ht. by rewrite length_reverse in Ht. }
    exists i, t. rewrite (tail_test_sweep l mu) in Hf by done.
    rewrite <- Hrev by done. by simplify_eq.
Qed.

Lemma put_labels_dom l mu lambda_ :
  dom (put_labels l mu lambda_) = list_to_set (sim_of <$> l).
Proof.
  apply set_eq. intros s.
  rewrite elem_of_dom, put_labels_lookup, elem_of_list_to_set.
  assert (s ∈ reached (sweep mu 0 (unmatch_prob <$> l)) (sim_of <$> l) →
          s ∈ sim_of <$> l) as H1.
  { rewrite elem_of_reached. intros (i & _ & Hs).
    by eapply list_elem_of_lookup_2. }
  assert (s ∈ reached (sweep lambda_ 0 (match_prob <$> reverse l))
                      (sim_of <$> reverse l) → s ∈ sim_of <$> l) as H2.
  { rewrite elem_of_reached. intros (i & _ & Hs).
    apply list_elem_of_lookup_2 in Hs.
    by rewrite fmap_reverse, elem_of_reverse in Hs. }
  repeat case_decide; split; intros; try done;
    try (by eexists); try (by apply is_Some_None in H3); eauto.
Qed.

(** Raising the bound of a sweep keeps every flag that was set: the
    slack [bound - acc] of the second sweep dominates that of the
    first throughout. *)
Lemma sweep_mono b1 b2 a1 a2 xs i :
  b1 - a1 <= b2 - a2 →
  sweep b1 a1 xs !! i = Some true → sweep b2 a2 xs !! i = Some true.
Proof.
  revert a1 a2 i. induction xs as [|x xs IH]; intros a1 a2 i Hs; [done|].
  simpl.
  destruct (Qle_bool (a1 + x) b1) eqn:E1, (Qle_bool (a2 + x) b2) eqn:E2;
    destruct i as [|i]; simpl; try done.
  - apply IH. lra.
  - apply Qle_bool_iff in E1.
    assert (¬ a2 + x <= b2) by (rewrite <- Qle_bool_iff; congruence). lra.
  - apply Qle_bool_iff in E1.
    assert (¬ a2 + x <= b2) by (rewrite <- Qle_bool_iff; congruence). lra.
  - apply IH. apply Qle_bool_iff in E2. lra.
  - apply IH. lra.
Qed.

Lemma reached_mono flags1 flags2 sigs :
  (∀ i, flags1 !! i = Some true → flags2 !! i = Some true) →
  reached flags1 sigs ⊆ reached flags2 sigs.
Proof.
  intros Hf s. rewrite !elem_of_reached. intros (i & ? & ?). eauto.
Qed.

Lemma count_label_mono (lab : label) (m1 m2 : gmap signature label) :
  (∀ s, m1 !! s = Some lab → m2 !! s = Some lab) →
  (count_label lab m1 ≤ count_label lab m2)%nat.
Proof.
  intros Hm. unfold count_label. rewrite <- !size_dom.
  apply subseteq_size. intros s. rewrite !elem_of_dom.
  intros [x Hx]. apply map_lookup_filter_Some in Hx as [Hx Hlab].
  simpl in Hlab. subst x. exists lab.
  apply map_lookup_filter_Some. eauto.
Qed.

(** With the bound 0 and masses that are not negative the running sum
    stays 0, and an element is within the bound when its mass is 0. *)
Lemma sweep_zero acc xs :
  acc == 0 → Forall (λ x, 0 <= x) xs →
  sweep 0 acc xs = (λ x, Qle_bool x 0) <$> xs.
Proof.
  intros Hacc Hxs. revert acc Hacc.
  induction Hxs as [|x xs Hx _ IH]; intros acc Hacc; [done|].
  simpl. assert (Qle_bool (acc + x) 0 = Qle_bool x 0) as ->.
  { apply eq_true_iff_eq. rewrite !Qle_bool_iff. lra. }
  destruct (Qle_bool x 0) eqn:E; f_equal; apply IH; [|done].
  apply Qle_bool_iff in E. lra.
Qed.
End put_labels_facts.

(** ** put_labels over a given arithmetic *)

Section put_labels_on_facts.
Context (A : arith).
Implicit Types (l : list (prob_tuple_on A)) (mu : a_num A) (s : signature).
Implicit Types (st : sweep_state_on A).
Implicit Types (ps : list (prob_tuple_on A * prob_tuple_on A)).

Local Notation "x ⊕ y" := (a_add A x y) (at level 50, left associativity).
Local Notation "x ≼ y" := (a_leb A x y) (at level 70, no associativity).

Lemma put_labels_step_body_on l mu lambda_ st i :
  (i < length l)%nat →
  ∃ t h, reverse l !! i = Some t ∧ l !! i = Some h ∧
         put_labels_step_on A l mu lambda_ st i
           = sweep_body_on A mu lambda_ st t h.
Proof.
  intros Hi. unfold put_labels_step_on.
  destruct (lookup_lt_is_Some_2 l i Hi) as [h Hh].
  destruct (lookup_lt_is_Some_2 l (length l - 1 - i)%nat) as [t Ht]; [lia|].
  exists t, h. rewrite Ht, Hh. split_and!; [|done..].
  rewrite reverse_lookup by done. rewrite <- Ht. f_equal. lia.
Qed.

Lemma put_labels_state_run_on l mu lambda_ k :
  (k ≤ length l)%nat →
  put_labels_state_on A l mu lambda_ k =
    sweep_run_on A mu lambda_ (sweep_init_on A) (take k (zip (reverse l) l)).
Proof.
  unfold put_labels_state_on, sweep_run_on.
  induction k as [|k IH]; intros Hk.
  { done. }
  rewrite seq_S, foldl_app, IH by lia. simpl.
  destruct (put_labels_step_body_on l mu lambda_
    (foldl (λ st p, sweep_body_on A mu lambda_ st p.1 p.2) (sweep_init_on A)
           (take k (zip (reverse l) l))) k) as (t & h & Ht & Hh & ->); [lia|].
  rewrite (take_S_r _ k (t, h)), foldl_app; [done|].
  apply lookup_zip_with_Some. eauto.
Qed.

Lemma put_labels_run_on l mu lambda_ :
  put_labels_on A l mu lambda_ =
    on_labels (sweep_run_on A mu lambda_ (sweep_init_on A)
                            (zip (reverse l) l)).
Proof.
  unfold put_labels_on. rewrite put_labels_state_run_on by done.
  rewrite take_ge; [done|].
  rewrite length_zip_with, length_reverse. lia.
Qed.

Lemma sweep_body_on_u mu lambda_ st t h :
  on_u (sweep_body_on A mu lambda_ st t h) =
    if (on_u st ⊕ unmatch_on h) ≼ mu then on_u st ⊕ unmatch_on h else mu.
Proof.
  unfold sweep_body_on. destruct (_ ≼ lambda_); simpl;
    by destruct (_ ≼ mu).
Qed.

Lemma sweep_body_on_m mu lambda_ st t h :
  on_m (sweep_body_on A mu lambda_ st t h) =
    if (on_m st ⊕ match_on t) ≼ lambda_ then on_m st ⊕ match_on t
    else lambda_.
Proof.
  unfold sweep_body_on. destruct (_ ≼ lambda_); simpl;
    by destruct (_ ≼ mu).
Qed.

Lemma sweep_run_on_u mu lambda_ st ps :
  on_u (sweep_run_on A mu lambda_ st ps) =
    sweep_acc_on A mu (on_u st) ((unmatch_on ∘ snd) <$> ps).
Proof.
  revert st. induction ps as [|[t h] ps IH]; intros st; [done|].
  unfold sweep_run_on in *. simpl. rewrite IH, sweep_body_on_u.
  by destruct (_ ≼ mu).
Qed.

Lemma sweep_run_on_m mu lambda_ st ps :
  on_m (sweep_run_on A mu lambda_ st ps) =
    sweep_acc_on A lambda_ (on_m st) ((match_on ∘ fst) <$> ps).
Proof.
  revert st. induction ps as [|[t h] ps IH]; intros st; [done|].
  unfold sweep_run_on in *. simpl. rewrite IH, sweep_body_on_m.
  by destruct (_ ≼ lambda_).
Qed.

Lemma sweep_on_lookup (bound acc : a_num A) xs i x :
  xs !! i = Some x →
  sweep_on A bound acc xs !! i =
    Some ((sweep_acc_on A bound acc (take i xs) ⊕ x) ≼ bound).
Proof.
  revert acc i. induction xs as [|y xs IH]; intros acc [|i] Hx;
    simplify_eq/=.
  - by destruct (_ ≼ bound).
  - destruct (_ ≼ bound); simpl; by apply IH.
Qed.

Lemma length_sweep_on (bound acc : a_num A) xs :
  length (sweep_on A bound acc xs) = length xs.
Proof.
  revert acc. induction xs as [|x xs IH]; intros acc; [done|].
  simpl. destruct (_ ≼ bound); simpl; by rewrite IH.
Qed.

Lemma sweep_body_on_labels mu lambda_ st t h s :
  on_labels (sweep_body_on A mu lambda_ st t h) !! s =
    merge_label (on_labels st !! s)
      (((on_u st ⊕ unmatch_on h) ≼ mu) && bool_decide (s = sim_on h))
      (((on_m st ⊕ match_on t) ≼ lambda_) && bool_decide (s = sim_on t))
      (bool_decide (s = sim_on h)).
Proof.
  unfold sweep_body_on, merge_label.
  generalize (sim_on t) (sim_on h) (on_labels st). intros a b L.
  destruct ((on_m st ⊕ match_on t) ≼ lambda_); simpl;
    destruct ((on_u st ⊕ unmatch_on h) ≼ mu); simpl;
    destruct (decide (s = b)) as [Hb|Hb], (decide (s = a)) as [Ha|Ha];
    subst;
    rewrite ?bool_decide_eq_true_2, ?bool_decide_eq_false_2 by done;
    simpl; repeat case_decide;
    rewrite ?lookup_insert_eq, ?lookup_insert_ne by done;
    rewrite ?lookup_insert_eq, ?lookup_insert_ne by done;
    try done;
    repeat match goal with
           | |- context [L !! ?k] => destruct (L !! k) as [[]|] eqn:?
           end;
    simplify_eq/=; rewrite ?bool_decide_eq_true_2 by done; done.
Qed.

Lemma sweep_run_on_labels mu lambda_ st ps s :
  on_labels (sweep_run_on A mu lambda_ st ps) !! s =
    merge_label (on_labels st !! s)
      (bool_decide (s ∈ reached
         (sweep_on A mu (on_u st) ((unmatch_on ∘ snd) <$> ps))
         ((sim_on ∘ snd) <$> ps)))
      (bool_decide (s ∈ reached
         (sweep_on A lambda_ (on_m st) ((match_on ∘ fst) <$> ps))
         ((sim_on ∘ fst) <$> ps)))
      (bool_decide (s ∈ (sim_on ∘ snd) <$> ps)).
Proof.
  revert st. induction ps as [|[t h] ps IH]; intros st.
  { simpl. destruct (on_labels st !! s) as [[]|]; by repeat case_bool_decide;
      try set_solver. }
  change (sweep_run_on A mu lambda_ st ((t, h) :: ps))
    with (sweep_run_on A mu lambda_ (sweep_body_on A mu lambda_ st t h) ps).
  rewrite IH, sweep_body_on_labels, merge_label_step. clear IH.
  rewrite !fmap_cons, bool_decide_elem_of_cons. simpl.
  rewrite sweep_body_on_u, sweep_body_on_m.
  f_equal.
  - destruct ((on_u st ⊕ unmatch_on h) ≼ mu);
      by rewrite elem_of_reached_cons.
  - destruct ((on_m st ⊕ match_on t) ≼ lambda_);
      by rewrite elem_of_reached_cons.
Qed.

(** The label of every signature after put_labels, by the two sweeps
    taken separately: as [put_labels_lookup], in any arithmetic. *)
Lemma put_labels_on_lookup l mu lambda_ s :
  put_labels_on A l mu lambda_ !! s =
    if decide (s ∈ reached (sweep_on A mu (a_zero A) (unmatch_on <$> l))
                           (sim_on <$> l))
    then Some Match
    else if decide (s ∈ reached
                (sweep_on A lambda_ (a_zero A) (match_on <$> reverse l))
                (sim_on <$> reverse l))
    then Some Unmatch
    else if decide (s ∈ sim_on <$> l) then Some PossibleMatch else None.
Proof.
  rewrite put_labels_run_on, sweep_run_on_labels. simpl.
  rewrite !fmap_zip_fst, !fmap_zip_snd by apply length_reverse.
  rewrite lookup_empty. unfold merge_label.
  repeat case_decide; repeat case_bool_decide; done.
Qed.

Lemma head_test_on_sweep l mu lambda_ i :
  (i < length l)%nat →
  sweep_on A mu (a_zero A) (unmatch_on <$> l) !! i
    = Some (head_test_on A l mu lambda_ i).
Proof.
  intros Hi. unfold head_test_on.
  destruct (lookup_lt_is_Some_2 l i Hi) as [h Hh]. rewrite Hh.
  rewrite (sweep_on_lookup _ _ _ _ (unmatch_on h))
    by (by rewrite list_lookup_fmap, Hh).
  rewrite put_labels_state_run_on, sweep_run_on_u by lia. simpl.
  rewrite <- fmap_take, zip_with_take, fmap_zip_snd; [done|].
  rewrite !length_take, length_reverse. done.
Qed.

Lemma tail_test_on_sweep l mu lambda_ i :
  (i < length l)%nat →
  sweep_on A lambda_ (a_zero A) (match_on <$> reverse l) !! i =
    Some (tail_test_on A l mu lambda_ i).
Proof.
  intros Hi. unfold tail_test_on.
  destruct (put_labels_step_body_on l mu lambda_ (sweep_init_on A) i Hi)
    as (t & h & Ht & _ & _).
  assert (l !! (length l - 1 - i)%nat = Some t) as ->.
  { rewrite <- Ht, reverse_lookup by done. f_equal. lia. }
  rewrite (sweep_on_lookup _ _ _ _ (match_on t))
    by (by rewrite list_lookup_fmap, Ht).
  rewrite put_labels_state_run_on, sweep_run_on_m by lia. simpl.
  rewrite <- fmap_take, zip_with_take, fmap_zip_fst; [done|].
  rewrite !length_take, length_reverse. done.
Qed.
End put_labels_on_facts.

(** ** What the laws of an arithmetic give for a sweep *)

Lemma exact_laws : arith_laws exact.
Proof.
  split; simpl.
  - done.
  - intros x y z. rewrite !Qle_bool_iff. apply Qle_trans.
  - intros x y. rewrite !Qle_bool_iff. lra.
  - intros x y. rewrite !Qle_bool_iff. lra.
Qed.

(** [<=] on doubles is transitive: by its specification it compares
    sign, exponent and mantissa, and holds of no NaN. *)
Lemma SFleb_transitive (x y z : SpecFloat.spec_float) :
  SpecFloat.SFleb x y = true → SpecFloat.SFleb y z = true →
  SpecFloat.SFleb x z = true.
Proof.
  unfold SpecFloat.SFleb, SpecFloat.SFcompare.
  destruct x as [sx|sx| |sx mx ex], y as [sy|sy| |sy my ey],
    z as [sz|sz| |sz mz ez];
    try destruct sx; try destruct sy; try destruct sz;
    try reflexivity; try discriminate;
    change (Pos.compare_cont Eq ?a ?b) with (Pos.compare a b);
    destruct (Z.compare_spec ex ey), (Z.compare_spec ey ez),
      (Z.compare_spec ex ez); try lia; try reflexivity; try discriminate;
    destruct (Pos.compare_spec mx my), (Pos.compare_spec my mz),
      (Pos.compare_spec mx mz); simpl; try lia; try reflexivity;
    try discriminate.
Qed.

Lemma binary64_leb_transitive (x y z : a_num binary64) :
  a_leb binary64 x y = true → a_leb binary64 y z = true →
  a_leb binary64 x z = true.
Proof.
  simpl. rewrite !FloatAxioms.leb_spec. apply SFleb_transitive.
Qed.

Section sweep_on_transitive.
Context (A : arith).
Context (a_leb_transitive : ∀ x y z,
  a_leb A x y = true → a_leb A y z = true → a_leb A x z = true).
Implicit Types (l : list (prob_tuple_on A)) (mu : a_num A).

Local Notation "x ≼ y" := (a_leb A x y = true)
  (at level 70, no associativity).

(** While no test has failed, the running sum does not depend on the
    bound: a larger bound passes every test of that initial run. *)
Lemma sweep_on_run_mono (b1 b2 acc : a_num A) (xs : list (a_num A)) i :
  b1 ≼ b2 →
  (∀ k, (k ≤ i)%nat → sweep_on A b1 acc xs !! k = Some true) →
  sweep_on A b2 acc xs !! i = Some true.
Proof.
  intros Hb. revert acc i. induction xs as [|x xs IH]; intros acc i Hrun.
  { specialize (Hrun 0%nat). simpl in Hrun. discriminate Hrun. lia. }
  pose proof (Hrun 0%nat ltac:(lia)) as H0. simpl in H0, Hrun |- *.
  destruct (a_leb A (a_add A acc x) b1) eqn:E1; [|done].
  rewrite (a_leb_transitive _ _ _ E1 Hb).
  destruct i as [|i]; [done|]. simpl. apply IH.
  intros k Hk. apply (Hrun (S k)). lia.
Qed.

Lemma put_labels_on_run_match l mu1 mu2 lambda1 lambda2 i h :
  mu1 ≼ mu2 → l !! i = Some h →
  (∀ k, (k ≤ i)%nat → head_test_on A l mu1 lambda1 k = true) →
  put_labels_on A l mu2 lambda2 !! sim_on h = Some Match.
Proof.
  intros Hmu Hh Hrun. rewrite put_labels_on_lookup.
  rewrite decide_True; [done|]. apply elem_of_reached. exists i.
  split; [|by rewrite list_lookup_fmap, Hh].
  apply (sweep_on_run_mono mu1); [done|]. intros k Hk.
  rewrite (head_test_on_sweep A l mu1 lambda1 k).
  - by rewrite Hrun.
  - apply lookup_lt_Some in Hh. lia.
Qed.

Lemma put_labels_on_run_unmatch l mu lambda1 lambda2 i t :
  lambda1 ≼ lambda2 → reverse l !! i = Some t →
  (∀ k, (k ≤ i)%nat → tail_test_on A l mu lambda1 k = true) →
  put_labels_on A l mu lambda1 !! sim_on t = Some Unmatch →
  put_labels_on A l mu lambda2 !! sim_on t = Some Unmatch.
Proof.
  intros Hla Ht Hrun. rewrite !put_labels_on_lookup.
  case_decide; [done|]. intros _.
  rewrite decide_True; [done|]. apply elem_of_reached. exists i.
  split; [|by rewrite list_lookup_fmap, Ht].
  apply (sweep_on_run_mono lambda1); [done|]. intros k Hk.
  rewrite (tail_test_on_sweep A l mu lambda1 k).
  - by rewrite Hrun.
  - apply lookup_lt_Some in Ht. rewrite length_reverse in Ht. lia.
Qed.
End sweep_on_transitive.

Section sweep_on_laws.
Context (A : arith) (LA : arith_laws A).
Implicit Types (bound acc x : a_num A) (xs : list (a_num A)).

Local Notation "x ⊕ y" := (a_add A x y) (at level 50, left associativity).
Local Notation "x ≼ y" := (a_leb A x y = true)
  (at level 70, no associativity).
Local Notation "0" := (a_zero A).

Lemma a_add_nonneg x y : 0 ≼ x → 0 ≼ y → 0 ≼ (x ⊕ y).
Proof.
  intros Hx Hy. eapply (a_leb_trans A LA); [exact Hx|].
  by apply (a_add_le_l A LA).
Qed.

(** A mass that passes the test is itself within the bound. *)
Lemma sweep_on_flag_le bound acc xs i x :
  0 ≼ bound → 0 ≼ acc →
  (∀ y, y ∈ xs → 0 ≼ y) →
  sweep_on A bound acc xs !! i = Some true → xs !! i = Some x →
  x ≼ bound.
Proof.
  intros Hb. revert acc i.
  induction xs as [|y xs IH]; intros acc i Hacc Hxs Hflag Hx; [done|].
  assert (0 ≼ y) as Hy by (apply Hxs; left).
  assert (∀ z, z ∈ xs → 0 ≼ z) as Hxs'
    by (intros z Hz; apply Hxs; by right).
  simpl in Hflag. destruct (a_leb A (acc ⊕ y) bound) eqn:E.
  - destruct i as [|i]; simplify_eq/=.
    + eapply (a_leb_trans A LA); [|exact E]. by apply (a_add_le_r A LA).
    + eapply (IH (acc ⊕ y)); eauto using a_add_nonneg.
  - destruct i as [|i]; simplify_eq/=. eapply (IH bound); eauto.
Qed.

Lemma foldl_add_ge acc xs bound :
  0 ≼ acc → (∀ y, y ∈ xs → 0 ≼ y) →
  foldl (a_add A) acc xs ≼ bound → acc ≼ bound.
Proof.
  revert acc. induction xs as [|y xs IH]; intros acc Hacc Hxs Hsum; [done|].
  assert (0 ≼ y) as Hy by (apply Hxs; left).
  simpl in Hsum. eapply (a_leb_trans A LA).
  - by apply (a_add_le_l A LA _ y).
  - apply IH; [by apply a_add_nonneg| |done].
    intros z Hz. apply Hxs. by right.
Qed.

(** A bound that covers the sum of the masses, added up in the order of
    the sweep, lets every test pass. *)
Lemma sweep_on_all bound acc xs i :
  0 ≼ acc → (∀ y, y ∈ xs → 0 ≼ y) →
  foldl (a_add A) acc xs ≼ bound →
  (i < length xs)%nat → sweep_on A bound acc xs !! i = Some true.
Proof.
  revert acc i. induction xs as [|y xs IH]; intros acc i Hacc Hxs Hsum Hi.
  { simpl in Hi. lia. }
  assert (0 ≼ y) as Hy by (apply Hxs; left).
  assert (∀ z, z ∈ xs → 0 ≼ z) as Hxs'
    by (intros z Hz; apply Hxs; by right).
  simpl in Hsum, Hi |- *.
  rewrite (foldl_add_ge (acc ⊕ y) xs bound) by eauto using a_add_nonneg.
  destruct i as [|i]; [done|]. simpl.
  apply IH; eauto using a_add_nonneg. lia.
Qed.
End sweep_on_laws.

Section put_labels_on_laws.
Context (A : arith) (LA : arith_laws A).
Implicit Types (l : list (prob_tuple_on A)) (mu : a_num A) (s : signature).

Local Notation "x ≼ y" := (a_leb A x y = true)
  (at level 70, no associativity).
Local Notation "0" := (a_zero A).

Lemma NoDup_fmap_lookup_eq l i j t t' :
  NoDup (sim_on <$> l) → l !! i = Some t → l !! j = Some t' →
  sim_on t = sim_on t' → t = t'.
Proof.
  intros Hnd Hi Hj Hs.
  assert (i = j) as ->; [|congruence].
  eapply NoDup_lookup; [exact Hnd| |];
    rewrite list_lookup_fmap; [by rewrite Hi|by rewrite Hj, Hs].
Qed.

Lemma put_labels_on_match_le l mu lambda_ t :
  NoDup (sim_on <$> l) → (∀ p, p ∈ l → 0 ≼ unmatch_on p) →
  0 ≼ mu → t ∈ l →
  put_labels_on A l mu lambda_ !! sim_on t = Some Match →
  unmatch_on t ≼ mu.
Proof.
  intros Hnd Hpos Hmu Ht. rewrite put_labels_on_lookup.
  case_decide as Hr; [intros _|repeat case_decide; done].
  apply elem_of_reached in Hr as (i & Hflag & Hs).
  rewrite list_lookup_fmap in Hs.
  destruct (l !! i) as [t'|] eqn:Hi; simplify_eq/=.
  apply list_elem_of_lookup in Ht as [j Hj].
  assert (t' = t) as -> by eauto using NoDup_fmap_lookup_eq.
  eapply (sweep_on_flag_le A LA mu 0 (unmatch_on <$> l) i); eauto.
  - apply (a_leb_zero A LA).
  - intros y (p & -> & Hp)%list_elem_of_fmap. by apply Hpos.
  - by rewrite list_lookup_fmap, Hi.
Qed.

Lemma put_labels_on_unmatch_le l mu lambda_ t :
  NoDup (sim_on <$> l) → (∀ p, p ∈ l → 0 ≼ match_on p) →
  0 ≼ lambda_ → t ∈ l →
  put_labels_on A l mu lambda_ !! sim_on t = Some Unmatch →
  match_on t ≼ lambda_.
Proof.
  intros Hnd Hpos Hla Ht. rewrite put_labels_on_lookup.
  case_decide; [done|]. case_decide as Hr; [intros _|case_decide; done].
  apply elem_of_reached in Hr as (i & Hflag & Hs).
  rewrite list_lookup_fmap in Hs.
  destruct (reverse l !! i) as [t'|] eqn:Hi; simplify_eq/=.
  assert (t ∈ reverse l) as [j Hj]%list_elem_of_lookup
    by (by rewrite elem_of_reverse).
  assert (t' = t) as ->.
  { eapply (NoDup_fmap_lookup_eq (reverse l)); eauto.
    rewrite fmap_reverse. by rewrite reverse_Permutation. }
  eapply (sweep_on_flag_le A LA lambda_ 0 (match_on <$> reverse l) i); eauto.
  - apply (a_leb_zero A LA).
  - intros y (p & -> & Hp)%list_elem_of_fmap. apply Hpos.
    by rewrite elem_of_reverse in Hp.
  - by rewrite list_lookup_fmap, Hi.
Qed.

Lemma put_labels_on_all_match l mu lambda_ t :
  (∀ p, p ∈ l → 0 ≼ unmatch_on p) →
  foldl (a_add A) 0 (unmatch_on <$> l) ≼ mu → t ∈ l →
  put_labels_on A l mu lambda_ !! sim_on t = Some Match.
Proof.
  intros Hpos Hsum [i Hi]%list_elem_of_lookup.
  rewrite put_labels_on_lookup, decide_True; [done|].
  apply elem_of_reached. exists i.
  split; [|by rewrite list_lookup_fmap, Hi].
  apply (sweep_on_all A LA); [apply (a_leb_zero A LA)| |done|].
  - intros y (p & -> & Hp)%list_elem_of_fmap. by apply Hpos.
  - rewrite length_fmap. by eapply lookup_lt_Some.
Qed.

Lemma put_labels_on_none_possible l mu lambda_ t :
  (∀ p, p ∈ l → 0 ≼ match_on p) →
  foldl (a_add A) 0 (match_on <$> reverse l) ≼ lambda_ → t ∈ l →
  put_labels_on A l mu lambda_ !! sim_on t ≠ Some PossibleMatch.
Proof.
  intros Hpos Hsum Ht.
  assert (t ∈ reverse l) as [i Hi]%list_elem_of_lookup
    by (by rewrite elem_of_reverse).
  rewrite put_labels_on_lookup. case_decide; [done|].
  rewrite decide_True; [done|].
  apply elem_of_reached. exists i.
  split; [|by rewrite list_lookup_fmap, Hi].
  apply (sweep_on_all A LA); [apply (a_leb_zero A LA)| |done|].
  - intros y (p & -> & Hp)%list_elem_of_fmap. apply Hpos.
    by rewrite elem_of_reverse in Hp.
  - rewrite length_fmap. by eapply lookup_lt_Some.
Qed.
End put_labels_on_laws.

(** ** The exact instance is the rational model *)

Lemma sweep_on_exact bound acc xs :
  sweep_on exact bound acc xs = sweep bound acc xs.
Proof.
  revert acc. induction xs as [|x xs IH]; intros acc; [done|].
  simpl. by rewrite !IH.
Qed.

Lemma put_labels_on_exact l mu lambda_ :
  put_labels_on exact l mu lambda_ = put_labels l mu lambda_.
Proof.
  apply map_eq. intros s.
  rewrite put_labels_on_lookup, put_labels_lookup, !sweep_on_exact. done.
Qed.

Lemma compute_probabilities_on_exact `{Similarity} df zagat fodors :
  compute_probabilities_on exact df zagat fodors
    = compute_probabilities df zagat fodors.
Proof. reflexivity. Qed.

(** ** put_labels: the claims *)

Section put_labels_claims.
Implicit Types (l : list prob_tuple) (mu : Q) (s : signature).

Lemma reached_zero (f : prob_tuple → Q) l s :
  s ∈ reached ((λ x, Qle_bool x 0) <$> (f <$> l)) (sim_of <$> l) ↔
    ∃ t, t ∈ l ∧ sim_of t = s ∧ f t <= 0.
Proof.
  rewrite elem_of_reached. setoid_rewrite list_lookup_fmap.
  setoid_rewrite list_lookup_fmap. split.
  - intros (i & Hf & Hs). destruct (l !! i) as [t|] eqn:Ht; simplify_eq/=.
    exists t. split_and!; [by eapply list_elem_of_lookup_2|done|].
    by apply Qle_bool_iff.
  - intros (t & [i Ht]%list_elem_of_lookup_1 & <- & Hle). exists i.
    rewrite Ht. simpl. split; [|done]. f_equal. by apply Qle_bool_iff.
Qed.

(** C1 (amended): the sweep from the tail of the ranked list accumulates
    the match-mass of each signature against lambda_ and labels
    'unmatch'; the sweep from the head accumulates the unmatch-mass
    against mu and labels 'match'; each sweep labels a signature when
    its running sum plus the mass stays <= the bound, the running sum
    being set to the bound otherwise.  This holds for every list and all
    mu, lambda_. *)
Theorem put_labels_two_sweeps l mu lambda_ :
  put_labels l mu lambda_ = two_sweeps unmatch_prob match_prob l mu lambda_.
Proof.
  apply map_eq. intros s. by rewrite put_labels_lookup, two_sweeps_lookup.
Qed.

(** C1 as stated (tail sweep on the unmatch-mass, head sweep on the
    match-mass) fails: for the single signature with match-mass 1 and
    unmatch-mass 0 and mu = lambda_ = 1/2, the code answers 'match'
    where the stated sweeps answer 'unmatch'. *)
Lemma put_labels_not_swapped_sweeps :
  put_labels ex_single (1 # 2) (1 # 2) !! ex_hh = Some Match ∧
  two_sweeps match_prob unmatch_prob ex_single (1 # 2) (1 # 2) !! ex_hh
    = Some Unmatch ∧
  put_labels ex_single (1 # 2) (1 # 2) ≠
    two_sweeps match_prob unmatch_prob ex_single (1 # 2) (1 # 2).
Proof.
  split_and!.
  - vm_compute. reflexivity.
  - vm_compute. reflexivity.
  - intros H. apply (f_equal (lookup ex_hh)) in H. vm_compute in H. done.
Qed.

(** C3 (amended): with mu = 0 and lambda_ = 0 (and masses that are not
    negative) the label mapping has an entry for every signature of the
    ranked list, and a pair is output 'possible match' exactly when
    every tuple carrying its signature has positive match-mass and
    positive unmatch-mass; a signature with a zero mass is labelled
    'match' or 'unmatch'. *)
Theorem put_labels_zero_bounds l :
  (∀ t, t ∈ l → 0 <= match_prob t ∧ 0 <= unmatch_prob t) →
  dom (put_labels l 0 0) = list_to_set (sim_of <$> l) ∧
  ∀ s, output_label (put_labels l 0 0) s = PossibleMatch ↔
       ∀ t, t ∈ l → sim_of t = s → 0 < match_prob t ∧ 0 < unmatch_prob t.
Proof.
  intros Hpos. split; [apply put_labels_dom|]. intros s.
  unfold output_label. rewrite put_labels_lookup.
  rewrite (sweep_zero 0 (unmatch_prob <$> l)); [|done|].
  2:{ apply Forall_fmap, Forall_forall. intros t Ht.
      destruct (Hpos t Ht). done. }
  rewrite (sweep_zero 0 (match_prob <$> reverse l)); [|done|].
  2:{ apply Forall_fmap, Forall_forall. intros t Ht.
      rewrite elem_of_reverse in Ht. destruct (Hpos t Ht). done. }
  assert (∀ (f : prob_tuple → Q) t, 0 < f t ∨ f t <= 0) as Hdec.
  { intros f t. destruct (Qlt_le_dec 0 (f t)); eauto. }
  repeat case_decide;
    repeat match goal with
           | H : context [reached _ _] |- _ => rewrite reached_zero in H
           end;
    simpl; (split; [intros Hlab|intros Hall]); try done.
  - destruct H as (t & Ht & Hs & Hle). destruct (Hall t Ht Hs). lra.
  - destruct H0 as (t & Ht & Hs & Hle). rewrite elem_of_reverse in Ht.
    destruct (Hall t Ht Hs). lra.
  - intros t Ht Hs. split.
    + destruct (Hdec match_prob t); [done|]. destruct H0.
      exists t. by rewrite elem_of_reverse.
    + destruct (Hdec unmatch_prob t); [done|]. destruct H. eauto.
  - intros t Ht Hs. split.
    + destruct (Hdec match_prob t); [done|]. destruct H0.
      exists t. by rewrite elem_of_reverse.
    + destruct (Hdec unmatch_prob t); [done|]. destruct H. eauto.
Qed.

(** C3 as stated fails: for the ranked list of the end-to-end scenario,
    with mu = 0 and lambda_ = 0, the mapping is not empty and the
    signature (high, high) is output as 'match'. *)
Lemma put_labels_zero_bounds_labelled :
  ex_ranked ≠ [] ∧
  put_labels ex_ranked 0 0 ≠ ∅ ∧
  output_label (put_labels ex_ranked 0 0) ex_hh ≠ PossibleMatch.
Proof.
  split_and!.
  - done.
  - intros H. apply (f_equal (lookup ex_hh)) in H. vm_compute in H. done.
  - vm_compute. done.
Qed.

(** C4: a signature touched by both sweeps ends up 'match'; 'possible
    match' is only the label of a signature that neither sweep touches;
    no signature is labelled both 'match' and 'unmatch'. *)
Theorem put_labels_precedence l mu lambda_ s :
  (head_touched l mu lambda_ s → tail_touched l mu lambda_ s →
   put_labels l mu lambda_ !! s = Some Match) ∧
  (put_labels l mu lambda_ !! s = Some PossibleMatch →
   ¬ head_touched l mu lambda_ s ∧ ¬ tail_touched l mu lambda_ s) ∧
  ¬ (put_labels l mu lambda_ !! s = Some Match ∧
     put_labels l mu lambda_ !! s = Some Unmatch).
Proof.
  rewrite head_touched_reached, tail_touched_reached, put_labels_lookup.
  repeat case_decide; naive_solver.
Qed.

(** In exact arithmetic, raising mu (lambda_ fixed) never lowers the
    number of signatures labelled 'match', and raising lambda_ (mu fixed)
    never lowers the number labelled 'unmatch': no sum is rounded, and
    the slack between a bound and its running sum only grows with the
    bound.  Rounded sums do not have this. *)
Lemma put_labels_monotone_exact l mu1 mu2 lambda1 lambda2 :
  mu1 <= mu2 → lambda1 <= lambda2 →
  (count_label Match (put_labels l mu1 lambda1)
     ≤ count_label Match (put_labels l mu2 lambda1))%nat ∧
  (count_label Unmatch (put_labels l mu1 lambda1)
     ≤ count_label Unmatch (put_labels l mu1 lambda2))%nat.
Proof.
  intros Hmu Hlam.
  assert (reached (sweep mu1 0 (unmatch_prob <$> l)) (sim_of <$> l) ⊆
          reached (sweep mu2 0 (unmatch_prob <$> l)) (sim_of <$> l)) as Hh.
  { apply reached_mono. intros i. apply sweep_mono. lra. }
  assert (reached (sweep lambda1 0 (match_prob <$> reverse l))
                  (sim_of <$> reverse l) ⊆
          reached (sweep lambda2 0 (match_prob <$> reverse l))
                  (sim_of <$> reverse l)) as Ht.
  { apply reached_mono. intros i. apply sweep_mono. lra. }
  split; apply count_label_mono; intros s; rewrite !put_labels_lookup;
    repeat case_decide; try done; set_solver.
Qed.
End put_labels_claims.

(** ** Raising a bound *)




(** ** gen_prob_tuple and compute_probabilities *)

Section estimator_facts.
Context `{Similarity}.
Implicit Types (z f : record) (zagat fodors : dataset).
Implicit Types (df : list (Z * Z)) (probs : gmap signature Q).

Lemma gen_prob_tuple_step_raise z f e (idx : list nat) :
  foldl (gen_prob_tuple_step z f) (Raise e) idx = Raise e.
Proof. induction idx as [|i idx IH]; [done|]. simpl. apply IH. Qed.

Lemma gen_prob_tuple_loop_ok z f k :
  (k ≤ length z)%nat → (k ≤ length f)%nat →
  foldl (gen_prob_tuple_step z f) (Ok []) (seq 0 k) =
    Ok (take k (zip_with field_category z f)).
Proof.
  induction k as [|k IH]; intros Hz Hf; [done|].
  rewrite seq_S, foldl_app, IH by lia. simpl.
  destruct (lookup_lt_is_Some_2 z k) as [zi Hzi]; [lia|].
  destruct (lookup_lt_is_Some_2 f k) as [fi Hfi]; [lia|].
  unfold gen_prob_tuple_step. simpl. rewrite Hzi, Hfi.
  f_equal. symmetry. apply take_S_r.
  rewrite lookup_zip_with, Hzi. simpl. by rewrite Hfi.
Qed.

Lemma gen_prob_tuple_loop_short z f :
  (length f < length z)%nat →
  foldl (gen_prob_tuple_step z f) (Ok []) (seq 0 (length z)) =
    Raise IndexError.
Proof.
  intros Hlt.
  assert (∃ d, length z = (length f + S d)%nat) as [d Hd]
    by (exists (length z - S (length f))%nat; lia).
  rewrite Hd, seq_app, foldl_app, gen_prob_tuple_loop_ok by lia.
  simpl.
  destruct (lookup_lt_is_Some_2 z (length f)) as [zi ->]; [lia|].
  rewrite (lookup_ge_None_2 f) by lia.
  apply gen_prob_tuple_step_raise.
Qed.

(** With both keys present and at least as many fields in the second
    record as in the first, gen_prob_tuple returns. *)
Lemma gen_prob_tuple_ok z_i f_i zagat fodors z f :
  zagat !! z_i = Some z → fodors !! f_i = Some f →
  (length z ≤ length f)%nat →
  gen_prob_tuple z_i f_i zagat fodors = Ok (zip_with field_category z f).
Proof.
  intros Hz Hf Hlen. unfold gen_prob_tuple, loc. rewrite Hz, Hf. simpl.
  rewrite gen_prob_tuple_loop_ok by lia. f_equal. apply take_ge.
  rewrite length_zip_with. lia.
Qed.

Lemma compute_probabilities_step_raise df zagat fodors e
    (rows : list (Z * Z)) :
  foldl (compute_probabilities_step df zagat fodors) (Raise e) rows
    = Raise e.
Proof. induction rows as [|r rows IH]; [done|]. simpl. apply IH. Qed.

(** compute_probabilities returns a distribution when every training pair
    names two present records, the second with at least as many fields as
    the first. *)
Lemma compute_probabilities_returns df zagat fodors :
  Forall (λ row, ∃ z f, zagat !! row.1 = Some z ∧ fodors !! row.2 = Some f ∧
                        (length z ≤ length f)%nat) df →
  ∃ probs, compute_probabilities df zagat fodors = Ok probs.
Proof.
  unfold compute_probabilities.
  assert (∀ rows probs0,
    Forall (λ row, ∃ z f, zagat !! row.1 = Some z ∧
                          fodors !! row.2 = Some f ∧
                          (length z ≤ length f)%nat) rows →
    ∃ probs, foldl (compute_probabilities_step df zagat fodors)
               (Ok probs0) rows = Ok probs) as Hfold; [|by apply Hfold].
  intros rows probs0 Hrows. revert probs0.
  induction Hrows as [|row rows (z & f & Hz & Hf & Hlen) _ IH];
    intros probs0; simpl.
  - by exists probs0.
  - rewrite (gen_prob_tuple_ok _ _ _ _ z f) by done. simpl. apply IH.
Qed.

Lemma foldr_Qplus_perm (xs ys : list Q) :
  xs ≡ₚ ys → foldr Qplus 0 xs == foldr Qplus 0 ys.
Proof.
  induction 1 as [|x xs ys _ IH|x y xs|xs ys zs _ IH1 _ IH2]; simpl.
  - reflexivity.
  - by rewrite IH.
  - ring.
  - by rewrite IH1.
Qed.

Lemma total_mass_insert_fresh probs s q :
  probs !! s = None → total_mass (<[s := q]> probs) == q + total_mass probs.
Proof.
  intros Hs. unfold total_mass.
  rewrite (foldr_Qplus_perm _ (q :: (map_to_list probs).*2)); [done|].
  by rewrite map_to_list_insert.
Qed.

(** Adding weight [w] to the bucket of [s] adds [w] to the total. *)
Lemma total_mass_accumulate probs s w :
  total_mass (<[s := default 0 (probs !! s) + w]> probs)
    == total_mass probs + w.
Proof.
  destruct (probs !! s) as [q|] eqn:Hs; simpl.
  - rewrite <- (insert_delete_eq probs s (q + w)).
    rewrite total_mass_insert_fresh by apply lookup_delete_eq.
    rewrite <- (insert_id probs s q) at 2 by done.
    rewrite <- (insert_delete_eq probs s q).
    rewrite (total_mass_insert_fresh (delete s probs) s q)
      by apply lookup_delete_eq.
    ring.
  - rewrite total_mass_insert_fresh by done. ring.
Qed.

Lemma compute_probabilities_fold_mass df zagat fodors rows probs0 probs :
  foldl (compute_probabilities_step df zagat fodors) (Ok probs0) rows
    = Ok probs →
  total_mass probs ==
    total_mass probs0 + inject_Z (Z.of_nat (length rows)) * unit_weight df.
Proof.
  revert probs0. induction rows as [|[z_i f_i] rows IH]; intros probs0 Hf.
  { simpl in *. simplify_eq. ring. }
  simpl in Hf.
  destruct (gen_prob_tuple z_i f_i zagat fodors) as [tpl|e]; simpl in Hf.
  - apply IH in Hf. rewrite Hf, total_mass_accumulate.
    rewrite length_cons, Nat2Z.inj_succ. unfold Z.succ.
    rewrite inject_Z_plus. ring.
  - by rewrite compute_probabilities_step_raise in Hf.
Qed.

Lemma unit_weight_nonneg df : 0 <= unit_weight df.
Proof.
  unfold unit_weight. destruct df as [|r df]; [done|].
  apply Qle_shift_div_l.
  - rewrite length_cons. unfold Qlt. simpl. lia.
  - rewrite Qmult_0_l. done.
Qed.

Lemma unit_weight_pos df : df ≠ [] → 0 < unit_weight df.
Proof.
  unfold unit_weight. destruct df as [|r df]; [done|]. intros _.
  apply Qlt_shift_div_l.
  - rewrite length_cons. unfold Qlt. simpl. lia.
  - rewrite Qmult_0_l. done.
Qed.

Lemma unit_weight_total df :
  df ≠ [] → inject_Z (Z.of_nat (length df)) * unit_weight df == 1.
Proof.
  intros Hdf. unfold unit_weight. field.
  destruct df as [|r df]; [done|].
  rewrite length_cons. unfold Qeq. simpl. lia.
Qed.

Lemma compute_probabilities_fold_lower df zagat fodors rows probs0 probs :
  foldl (compute_probabilities_step df zagat fodors) (Ok probs0) rows
    = Ok probs →
  (∀ s q, probs0 !! s = Some q → unit_weight df <= q) →
  ∀ s q, probs !! s = Some q → unit_weight df <= q.
Proof.
  revert probs0. induction rows as [|[z_i f_i] rows IH]; intros probs0 Hf H0.
  { simpl in *. by simplify_eq. }
  simpl in Hf.
  destruct (gen_prob_tuple z_i f_i zagat fodors) as [tpl|e]; simpl in Hf.
  - eapply IH; [exact Hf|]. intros s q.
    pose proof (unit_weight_nonneg df).
    destruct (decide (tpl = s)) as [->|Hne].
    + rewrite lookup_insert_eq. intros [= <-].
      destruct (probs0 !! s) as [q0|] eqn:Hq0; simpl; [|lra].
      apply H0 in Hq0. lra.
    + rewrite lookup_insert_ne by done. apply H0.
  - by rewrite compute_probabilities_step_raise in Hf.
Qed.
End estimator_facts.

(** ** The ranking order and ordered_probabilities *)

Section compare_facts.
Context {A : Type} (cmp : A → A → comparison) (Hcmp : compare_laws cmp).

Lemma compare_eq_r a b c : cmp b c = Eq → cmp a b = cmp a c.
Proof.
  destruct Hcmp as (Hopp & Heq & _). intros Hbc.
  rewrite (Hopp b a), (Hopp c a). f_equal. by apply Heq.
Qed.

Lemma compare_total a b : cmp a b ≠ Gt ∨ cmp b a ≠ Gt.
Proof.
  destruct Hcmp as (Hopp & _ & _). rewrite (Hopp a b).
  destruct (cmp a b); simpl; auto.
Qed.

Lemma compare_trans a b c : cmp a b ≠ Gt → cmp b c ≠ Gt → cmp a c ≠ Gt.
Proof.
  pose proof (compare_eq_r a b c) as Hr.
  destruct Hcmp as (Hopp & Heq & Hlt). intros Hab Hbc.
  destruct (cmp a b) eqn:E1; [|clear Hab|done].
  - by rewrite (Heq a b c).
  - destruct (cmp b c) eqn:E2; [|clear Hbc|done].
    + by rewrite <- Hr.
    + by rewrite (Hlt a b c).
Qed.
End compare_facts.

(** A lexicographic combination of two lawful comparisons is lawful. *)
Lemma lex_compare_laws {A B C : Type} (cmp1 : B → B → comparison)
    (cmp2 : C → C → comparison) (k1 : A → B) (k2 : A → C) :
  compare_laws cmp1 → compare_laws cmp2 →
  compare_laws (λ x y, match cmp1 (k1 x) (k1 y) with
                       | Eq => cmp2 (k2 x) (k2 y)
                       | c => c
                       end).
Proof.
  intros H1 H2.
  pose proof (compare_eq_r cmp1 H1) as Hr1.
  destruct H1 as (Hopp1 & Heq1 & Hlt1), H2 as (Hopp2 & Heq2 & Hlt2).
  split_and!.
  - intros a b. rewrite (Hopp1 (k1 a) (k1 b)), (Hopp2 (k2 a) (k2 b)).
    by destruct (cmp1 (k1 a) (k1 b)).
  - intros a b c Hab.
    destruct (cmp1 (k1 a) (k1 b)) eqn:E1; try done.
    by rewrite (Heq1 _ _ (k1 c) E1), (Heq2 _ _ (k2 c) Hab).
  - intros a b c Hab Hbc.
    destruct (cmp1 (k1 a) (k1 b)) eqn:E1; try done;
      destruct (cmp1 (k1 b) (k1 c)) eqn:E2; try done.
    + rewrite (Heq1 _ _ (k1 c) E1), E2. eauto.
    + by rewrite (Heq1 _ _ (k1 c) E1), E2.
    + by rewrite <- (Hr1 (k1 a) _ _ E2), E1.
    + by rewrite (Hlt1 _ _ _ E1 E2).
Qed.

Lemma ratio_compare_laws : compare_laws ratio_compare.
Proof.
  split_and!.
  - intros [|a] [|b]; simpl; try done. symmetry. apply Qcompare_antisym.
  - intros [|a] [|b] [|c]; simpl; try done.
    intros Hab%Qeq_alt. by rewrite Hab.
  - intros [|a] [|b] [|c]; simpl; try done.
    rewrite <- !Qlt_alt. intros Hba Hcb. by apply (Qlt_trans c b a).
Qed.

Lemma category_rank_inj c1 c2 : category_rank c1 = category_rank c2 → c1 = c2.
Proof. by destruct c1, c2. Qed.

Lemma sig_compare_eq s1 s2 : sig_compare s1 s2 = Eq → s1 = s2.
Proof.
  revert s2. induction s1 as [|c1 s1 IH]; intros [|c2 s2]; simpl; try done.
  destruct (Nat.compare_spec (category_rank c1) (category_rank c2));
    try done.
  intros Hs. f_equal; auto using category_rank_inj.
Qed.

Lemma sig_compare_laws : compare_laws sig_compare.
Proof.
  split_and!.
  - intros a. induction a as [|c1 a IH]; intros [|c2 b]; simpl; try done.
    rewrite (Nat.compare_antisym (category_rank c1) (category_rank c2)).
    destruct (category_rank c1 ?= category_rank c2)%nat; simpl; auto.
  - intros a b c Hab. apply sig_compare_eq in Hab. by subst.
  - intros a. induction a as [|c1 a IH]; intros [|c2 b] [|c3 c]; simpl;
      try done.
    destruct (Nat.compare_spec (category_rank c1) (category_rank c2));
      destruct (Nat.compare_spec (category_rank c2) (category_rank c3));
      destruct (Nat.compare_spec (category_rank c1) (category_rank c3));
      try done; try lia; eauto.
Qed.

Lemma rank_compare_laws : compare_laws rank_compare.
Proof.
  apply (lex_compare_laws ratio_compare sig_compare likelihood_ratio sim_of).
  - apply ratio_compare_laws.
  - apply sig_compare_laws.
Qed.

Global Instance ranks_before_total : Total ranks_before.
Proof. intros t1 t2. apply (compare_total _ rank_compare_laws). Qed.

Global Instance ranks_before_trans : Transitive ranks_before.
Proof. intros t1 t2 t3. apply (compare_trans _ rank_compare_laws). Qed.

Lemma ranks_before_antisym t1 t2 :
  ranks_before t1 t2 → ranks_before t2 t1 → sim_of t1 = sim_of t2.
Proof.
  unfold ranks_before. destruct rank_compare_laws as (Hopp & _ & _).
  rewrite (Hopp t1 t2). unfold rank_compare.
  destruct (ratio_compare _ _); simpl; try done.
  destruct (sig_compare _ _) eqn:E; simpl; try done.
  intros _ _. by apply sig_compare_eq.
Qed.

Section ranker_facts.
Implicit Types (mp up : gmap signature Q) (s : signature).
Implicit Types (sim_tpls : list signature) (t : prob_tuple).

Lemma sim_of_prob_tuple_of mp up sim_tpls :
  sim_of <$> (prob_tuple_of mp up <$> sim_tpls) = sim_tpls.
Proof.
  rewrite <- list_fmap_compose. rewrite <- (list_fmap_id sim_tpls) at 2.
  by apply list_fmap_ext.
Qed.

Lemma ordered_probabilities_from_perm sim_tpls mp up :
  ordered_probabilities_from sim_tpls mp up ≡ₚ
    prob_tuple_of mp up <$> sim_tpls.
Proof. apply merge_sort_Permutation. Qed.

Lemma ordered_probabilities_from_sims sim_tpls mp up :
  sim_of <$> ordered_probabilities_from sim_tpls mp up ≡ₚ sim_tpls.
Proof.
  by rewrite ordered_probabilities_from_perm, sim_of_prob_tuple_of.
Qed.

Lemma ordered_probabilities_from_sorted sim_tpls mp up :
  StronglySorted ranks_before (ordered_probabilities_from sim_tpls mp up).
Proof. apply StronglySorted_merge_sort; apply _. Qed.

Lemma elem_of_ordered_probabilities_from sim_tpls mp up t :
  t ∈ ordered_probabilities_from sim_tpls mp up ↔
    sim_of t ∈ sim_tpls ∧ t = prob_tuple_of mp up (sim_of t).
Proof.
  rewrite ordered_probabilities_from_perm, list_elem_of_fmap. split.
  - by intros (s & -> & Hs).
  - intros [Hs Ht]. eauto.
Qed.

(** The enumeration order of the key set does not show in the result. *)
Lemma ordered_probabilities_from_unique sim_tpls1 sim_tpls2 mp up :
  sim_tpls1 ≡ₚ sim_tpls2 →
  ordered_probabilities_from sim_tpls1 mp up =
    ordered_probabilities_from sim_tpls2 mp up.
Proof.
  intros Hp. apply (StronglySorted_unique_strong ranks_before).
  - intros t1 t2 [_ Ht1]%elem_of_ordered_probabilities_from
      [_ Ht2]%elem_of_ordered_probabilities_from H12 H21.
    rewrite Ht1, Ht2. by rewrite (ranks_before_antisym t1 t2).
  - apply ordered_probabilities_from_sorted.
  - apply ordered_probabilities_from_sorted.
  - by rewrite !ordered_probabilities_from_perm, Hp.
Qed.

Lemma ordered_probabilities_NoDup mp up :
  NoDup (sim_of <$> ordered_probabilities mp up).
Proof.
  unfold ordered_probabilities.
  rewrite ordered_probabilities_from_sims. apply NoDup_elements.
Qed.

Lemma elem_of_ordered_probabilities mp up t :
  t ∈ ordered_probabilities mp up ↔
    sim_of t ∈ dom mp ∪ dom up ∧ t = prob_tuple_of mp up (sim_of t).
Proof.
  unfold ordered_probabilities.
  by rewrite elem_of_ordered_probabilities_from, elem_of_elements.
Qed.

(** In a list without repeated signatures the positions order the
    signatures totally. *)
Lemma before_total (ranked : list prob_tuple) s1 s2 :
  NoDup (sim_of <$> ranked) →
  s1 ∈ sim_of <$> ranked → s2 ∈ sim_of <$> ranked → s1 ≠ s2 →
  (before ranked s1 s2 ∧ ¬ before ranked s2 s1) ∨
  (before ranked s2 s1 ∧ ¬ before ranked s1 s2).
Proof.
  intros Hnd [i Hi]%list_elem_of_lookup_1 [j Hj]%list_elem_of_lookup_1 Hne.
  assert (∀ a b k n t1 t2, (k < n)%nat →
    (sim_of <$> ranked) !! a = Some (sim_of t1) →
    (sim_of <$> ranked) !! b = Some (sim_of t2) →
    ranked !! k = Some t2 → ranked !! n = Some t1 → (b < a)%nat) as Hord.
  { intros a b k n t1 t2 Hkn Ha Hb Hk Hn.
    assert (a = n) as ->.
    { eapply NoDup_lookup; [done..|]. by rewrite list_lookup_fmap, Hn. }
    assert (b = k) as ->; [|done].
    eapply NoDup_lookup; [done..|]. by rewrite list_lookup_fmap, Hk. }
  pose proof Hi as Hi'. pose proof Hj as Hj'.
  rewrite list_lookup_fmap in Hi', Hj'.
  destruct (ranked !! i) as [t1|] eqn:Ht1; simplify_eq/=.
  destruct (ranked !! j) as [t2|] eqn:Ht2; simplify_eq/=.
  destruct (Nat.lt_trichotomy i j) as [Hlt|[->|Hlt]].
  - left. split; [by exists i, j, t1, t2|].
    intros (k & n & t2' & t1' & Hkn & Hk & Hn & E2 & E1).
    rewrite <- E1 in Hi. rewrite <- E2 in Hj.
    pose proof (Hord _ _ _ _ _ _ Hkn Hi Hj Hk Hn). lia.
  - by simplify_eq.
  - right. split; [by exists j, i, t2, t1|].
    intros (k & n & t1' & t2' & Hkn & Hk & Hn & E1 & E2).
    rewrite <- E1 in Hi. rewrite <- E2 in Hj.
    pose proof (Hord _ _ _ _ _ _ Hkn Hj Hi Hk Hn). lia.
Qed.
End ranker_facts.

(** ** gen_prob_tuple, compute_probabilities, ordered_probabilities:
       the claims *)

Section estimator_claims.
Context `{Similarity}.
Implicit Types (z f : record) (zagat fodors : dataset).
Implicit Types (df : list (Z * Z)) (probs mp up : gmap signature Q).

(** C2 (amended): given an empty set of training pairs,
    compute_probabilities returns the empty distribution and raises
    nothing: the loop body, and the division 1 / len(df) in it, is never
    run. *)
Theorem compute_probabilities_empty zagat fodors :
  compute_probabilities [] zagat fodors = Ok ∅.
Proof. reflexivity. Qed.

(** In exact arithmetic the masses of a distribution returned for a
    non-empty list of training pairs sum to 1: len(df) additions of
    1 / len(df), none of them rounded. *)
Lemma compute_probabilities_total_mass_exact df zagat fodors probs :
  df ≠ [] →
  compute_probabilities df zagat fodors = Ok probs →
  total_mass probs == 1 ∧ Qabs (total_mass probs - 1) <= 1 # 1000000000.
Proof.
  intros Hdf Hp. apply compute_probabilities_fold_mass in Hp.
  rewrite unit_weight_total in Hp by done.
  assert (total_mass probs == 1) as Heq.
  { rewrite Hp. unfold total_mass. rewrite map_to_list_empty. simpl. ring. }
  split; [done|]. rewrite Heq. done.
Qed.

(** C9 (amended): gen_prob_tuple raises (IndexError) when the second
    record has fewer fields than the first; when it has as many or more,
    gen_prob_tuple returns a signature with one category per field of
    the first record, the surplus fields of the second being ignored. *)
Theorem gen_prob_tuple_field_counts z_i f_i zagat fodors z f :
  zagat !! z_i = Some z → fodors !! f_i = Some f →
  ((length f < length z)%nat →
   gen_prob_tuple z_i f_i zagat fodors = Raise IndexError) ∧
  ((length z ≤ length f)%nat →
   gen_prob_tuple z_i f_i zagat fodors = Ok (zip_with field_category z f) ∧
   length (zip_with field_category z f) = length z).
Proof.
  intros Hz Hf. split; intros Hlen.
  - unfold gen_prob_tuple, loc. rewrite Hz, Hf. simpl.
    by apply gen_prob_tuple_loop_short.
  - split; [by apply gen_prob_tuple_ok|].
    rewrite length_zip_with. lia.
Qed.

(** C10: every mass stored by compute_probabilities is strictly
    positive, at least 1 / len(df); hence every tuple that
    ordered_probabilities builds from two such distributions has a
    positive match-mass or a positive unmatch-mass. *)
Theorem compute_probabilities_positive match_ unmatch zagat fodors mp up :
  compute_probabilities match_ zagat fodors = Ok mp →
  compute_probabilities unmatch zagat fodors = Ok up →
  (∀ s q, mp !! s = Some q → 0 < q ∧ unit_weight match_ <= q) ∧
  (∀ s q, up !! s = Some q → 0 < q ∧ unit_weight unmatch <= q) ∧
  (∀ t, t ∈ ordered_probabilities mp up →
        0 < match_prob t ∨ 0 < unmatch_prob t).
Proof.
  intros Hmp Hup.
  assert (∀ df probs, compute_probabilities df zagat fodors = Ok probs →
            ∀ s q, probs !! s = Some q → 0 < q ∧ unit_weight df <= q) as Hlow.
  { intros df probs Hp s q Hq.
    assert (unit_weight df <= q) as Hle.
    { eapply compute_probabilities_fold_lower; [exact Hp| |exact Hq].
      intros s' q'. by rewrite lookup_empty. }
    split; [|done]. destruct df as [|r df].
    - unfold compute_probabilities in Hp. simpl in Hp.
      injection Hp as <-. by rewrite lookup_empty in Hq.
    - assert (0 < unit_weight (r :: df)) by (by apply unit_weight_pos).
      lra. }
  split_and!; [by eapply Hlow..|].
  intros t [Hs ->]%elem_of_ordered_probabilities.
  unfold match_prob, unmatch_prob. simpl.
  apply elem_of_union in Hs as [Hs|Hs];
    apply elem_of_dom in Hs as [q Hq]; rewrite Hq; simpl.
  - left. by destruct (Hlow _ _ Hmp _ _ Hq).
  - right. by destruct (Hlow _ _ Hup _ _ Hq).
Qed.
End estimator_claims.

(** C2 as stated fails: on the empty list of pairs no error is raised. *)
Lemma compute_probabilities_empty_no_error :
  ¬ ∃ e, compute_probabilities (H := ex_similarity) [] ex_zagat ex_fodors
         = Raise e.
Proof. intros [e He]. vm_compute in He. discriminate He. Qed.

(** C9 as stated fails: the first record has two fields, the second
    three, and a signature is returned. *)
Lemma gen_prob_tuple_mismatch_silent :
  ex_zagat !! 1%Z = Some ["spago"; "la"] ∧
  ex_fodors !! 1%Z = Some ["spago"; "la"; "8795 sunset blvd"] ∧
  gen_prob_tuple (H := ex_similarity) 1 1 ex_zagat ex_fodors
    = Ok [high; high].
Proof. split_and!; vm_compute; reflexivity. Qed.

Section ranker_claims.
Implicit Types (mp up : gmap signature Q) (s : signature).

(** C7: the positions of the list returned by ordered_probabilities
    order its signatures totally (of two distinct signatures exactly one
    comes before the other), and the list does not depend on the order
    in which the key set is enumerated: every call on the same two
    distributions returns the same list. *)
Theorem ordered_probabilities_total_order mp up :
  (∀ s1 s2,
     s1 ∈ sim_of <$> ordered_probabilities mp up →
     s2 ∈ sim_of <$> ordered_probabilities mp up →
     s1 ≠ s2 →
     (before (ordered_probabilities mp up) s1 s2 ∧
      ¬ before (ordered_probabilities mp up) s2 s1) ∨
     (before (ordered_probabilities mp up) s2 s1 ∧
      ¬ before (ordered_probabilities mp up) s1 s2)) ∧
  (∀ sim_tpls,
     sim_tpls ≡ₚ elements (dom mp ∪ dom up) →
     ordered_probabilities_from sim_tpls mp up = ordered_probabilities mp up).
Proof.
  split.
  - intros s1 s2. apply before_total, ordered_probabilities_NoDup.
  - intros sim_tpls Hp. by apply ordered_probabilities_from_unique.
Qed.

(** C8: the list returned by ordered_probabilities has exactly one entry
    per signature of the union of the key sets, and the entry of a
    signature carries its match-mass and unmatch-mass, 0 standing for a
    distribution that lacks the signature. *)
Theorem ordered_probabilities_entries mp up :
  NoDup (sim_of <$> ordered_probabilities mp up) ∧
  (∀ s, s ∈ sim_of <$> ordered_probabilities mp up ↔ s ∈ dom mp ∪ dom up) ∧
  (∀ t, t ∈ ordered_probabilities mp up →
        match_prob t = default 0 (mp !! sim_of t) ∧
        unmatch_prob t = default 0 (up !! sim_of t)).
Proof.
  split_and!.
  - apply ordered_probabilities_NoDup.
  - intros s. unfold ordered_probabilities.
    by rewrite ordered_probabilities_from_sims, elem_of_elements.
  - intros t [_ Ht]%elem_of_ordered_probabilities. by rewrite Ht.
Qed.
End ranker_claims.

(** ** The theorems at concrete inputs *)

Lemma put_labels_zero_bounds_witness :
  (∀ t, t ∈ ex_positive → 0 <= match_prob t ∧ 0 <= unmatch_prob t) ∧
  dom (put_labels ex_positive 0 0) = list_to_set (sim_of <$> ex_positive) ∧
  ∀ s, output_label (put_labels ex_positive 0 0) s = PossibleMatch ↔
       ∀ t, t ∈ ex_positive → sim_of t = s →
            0 < match_prob t ∧ 0 < unmatch_prob t.
Proof.
  assert (∀ t, t ∈ ex_positive → 0 <= match_prob t ∧ 0 <= unmatch_prob t)
    as Hpos.
  { intros t Ht. unfold ex_positive in Ht.
    rewrite !elem_of_cons, elem_of_nil in Ht.
    destruct Ht as [->|[->|[]]]; vm_compute; split; discriminate. }
  split; [exact Hpos|]. exact (put_labels_zero_bounds ex_positive Hpos).
Defined.

Lemma put_labels_precedence_witness :
  put_labels ex_both (1 # 2) (1 # 2) !! ex_hh = Some Match.
Proof.
  apply (proj1 (put_labels_precedence ex_both (1 # 2) (1 # 2) ex_hh)).
  - exists 0%nat, (ex_hh, 1 # 4, 1 # 4). split_and!; reflexivity.
  - exists 0%nat, (ex_hh, 1 # 4, 1 # 4). split_and!; [simpl; lia|reflexivity..].
Defined.

Lemma gen_prob_tuple_field_counts_witness :
  gen_prob_tuple (H := ex_similarity) 1 2 ex_zagat ex_fodors
    = Raise IndexError ∧
  gen_prob_tuple (H := ex_similarity) 1 1 ex_zagat ex_fodors
    = Ok [high; high].
Proof.
  split.
  - apply (proj1 (gen_prob_tuple_field_counts (H := ex_similarity) 1 2
             ex_zagat ex_fodors ["spago"; "la"] ["spago"]
             eq_refl eq_refl)).
    simpl. lia.
  - apply (proj2 (gen_prob_tuple_field_counts (H := ex_similarity) 1 1
             ex_zagat ex_fodors ["spago"; "la"]
             ["spago"; "la"; "8795 sunset blvd"] eq_refl eq_refl)).
    simpl. lia.
Defined.

Lemma compute_probabilities_positive_witness :
  (∀ s q, ex_match_probs !! s = Some q →
          0 < q ∧ unit_weight ex_pairs <= q) ∧
  (∀ s q, ex_unmatch_probs !! s = Some q →
          0 < q ∧ unit_weight [(1, 3)%Z] <= q) ∧
  (∀ t, t ∈ ordered_probabilities ex_match_probs ex_unmatch_probs →
        0 < match_prob t ∨ 0 < unmatch_prob t).
Proof.
  apply (compute_probabilities_positive (H := ex_similarity)
           ex_pairs [(1, 3)%Z] ex_zagat ex_fodors).
  - vm_compute. reflexivity.
  - vm_compute. reflexivity.
Defined.

Lemma ordered_probabilities_total_order_witness :
  ((before (ordered_probabilities ex_match_probs ex_unmatch_probs) ex_hh ex_lh
    ∧ ¬ before (ordered_probabilities ex_match_probs ex_unmatch_probs)
          ex_lh ex_hh) ∨
   (before (ordered_probabilities ex_match_probs ex_unmatch_probs) ex_lh ex_hh
    ∧ ¬ before (ordered_probabilities ex_match_probs ex_unmatch_probs)
          ex_hh ex_lh)) ∧
  ordered_probabilities_from [ex_lh; ex_hh] ex_match_probs ex_unmatch_probs
    = ordered_probabilities ex_match_probs ex_unmatch_probs.
Proof.
  split.
  - apply (proj1 (ordered_probabilities_total_order
                    ex_match_probs ex_unmatch_probs) ex_hh ex_lh).
    + vm_compute. apply list_elem_of_here.
    + vm_compute. apply list_elem_of_further, list_elem_of_here.
    + discriminate.
  - apply (proj2 (ordered_probabilities_total_order
                    ex_match_probs ex_unmatch_probs)).
    vm_compute. apply perm_swap.
Defined.

Lemma ordered_probabilities_entries_witness :
  ordered_probabilities ex_match_probs ex_unmatch_probs
    = [(ex_hh, 8 # 16, 0); (ex_lh, 8 # 16, 1)] ∧
  NoDup (sim_of <$> ordered_probabilities ex_match_probs ex_unmatch_probs).
Proof.
  split; [vm_compute; reflexivity|].
  apply (proj1 (ordered_probabilities_entries ex_match_probs ex_unmatch_probs)).
Defined.

(** ** Further properties of gen_prob_tuple and compute_probabilities *)

Section estimator_extra.
Context `{Similarity}.
Implicit Types (z f : record) (zagat fodors : dataset).
Implicit Types (df : list (Z * Z)) (probs : gmap signature Q).
Implicit Types (s : signature) (sigs : list signature).

(** compute_probabilities first collects the signatures of the rows and
    then tallies them. *)
Lemma compute_probabilities_fold_signatures df zagat fodors rows probs0 :
  foldl (compute_probabilities_step df zagat fodors) (Ok probs0) rows =
    sigs ← pair_signatures rows zagat fodors;
    Ok (foldl (accumulate (unit_weight df)) probs0 sigs).
Proof.
  revert probs0. induction rows as [|row rows IH]; intros probs0; [done|].
  simpl. destruct (gen_prob_tuple row.1 row.2 zagat fodors) as [tpl|e]; simpl.
  - rewrite IH. by destruct (pair_signatures rows zagat fodors).
  - apply compute_probabilities_step_raise.
Qed.

Lemma compute_probabilities_signatures df zagat fodors :
  compute_probabilities df zagat fodors =
    sigs ← pair_signatures df zagat fodors;
    Ok (foldl (accumulate (unit_weight df)) ∅ sigs).
Proof. apply compute_probabilities_fold_signatures. Qed.

Lemma pair_signatures_length df zagat fodors sigs :
  pair_signatures df zagat fodors = Ok sigs → length sigs = length df.
Proof.
  revert sigs. induction df as [|row df IH]; intros sigs Hs; simpl in *.
  { by simplify_eq. }
  destruct (gen_prob_tuple row.1 row.2 zagat fodors) as [tpl|e];
    simpl in Hs; [|done].
  destruct (pair_signatures df zagat fodors) as [tpls|e]; simpl in Hs;
    [|done].
  simplify_eq. simpl. f_equal. by apply IH.
Qed.

Lemma pair_signatures_raise df zagat fodors e :
  pair_signatures df zagat fodors = Raise e ↔
    ∃ k row, df !! k = Some row ∧
      gen_prob_tuple row.1 row.2 zagat fodors = Raise e ∧
      ∀ k' row', (k' < k)%nat → df !! k' = Some row' →
        ∃ tpl, gen_prob_tuple row'.1 row'.2 zagat fodors = Ok tpl.
Proof.
  induction df as [|row df IH]; simpl.
  { split; [done|]. by intros (k & row & Hk & _). }
  destruct (gen_prob_tuple row.1 row.2 zagat fodors) as [tpl|e0] eqn:Hg;
    simpl.
  - assert (pair_signatures df zagat fodors = Raise e ↔
            (pair_signatures df zagat fodors ≫= λ tpls, Ok (tpl :: tpls))
              = Raise e) as <-.
    { by destruct (pair_signatures df zagat fodors). }
    rewrite IH. split.
    + intros (k & row' & Hk & Hr & Hbefore). exists (S k), row'.
      split_and!; [done..|]. intros [|k'] r' Hlt Hk'; simplify_eq/=.
      * by exists tpl.
      * apply (Hbefore k' r'); [lia|done].
    + intros ([|k] & row' & Hk & Hr & Hbefore); simpl in Hk.
      * injection Hk as <-. congruence.
      * exists k, row'. split_and!; [done..|].
        intros k' r' Hlt Hk'. apply (Hbefore (S k') r'); [lia|done].
  - split.
    + intros [= ->]. exists 0%nat, row. split_and!; [done..|].
      intros k' r' Hlt. lia.
    + intros ([|k] & row' & Hk & Hr & Hbefore); simpl in Hk.
      * injection Hk as <-. congruence.
      * destruct (Hbefore 0%nat row) as [tpl Ht]; [lia|done|congruence].
Qed.

Lemma count_sig_cons s tpl sigs :
  count_sig s (tpl :: sigs) =
    if decide (tpl = s) then S (count_sig s sigs) else count_sig s sigs.
Proof.
  unfold count_sig. rewrite filter_cons. by destruct (decide (tpl = s)).
Qed.

Lemma count_sig_elem_of s sigs : count_sig s sigs ≠ 0%nat ↔ s ∈ sigs.
Proof.
  induction sigs as [|tpl sigs IH]; [by rewrite elem_of_nil|].
  rewrite count_sig_cons, elem_of_cons.
  destruct (decide (tpl = s)); [naive_solver|]. rewrite IH. naive_solver.
Qed.

Lemma count_sig_perm s sigs sigs' :
  sigs ≡ₚ sigs' → count_sig s sigs = count_sig s sigs'.
Proof. intros Hp. unfold count_sig. by rewrite Hp. Qed.

(** The bucket of [s] after the signatures [sigs] have been tallied. *)
Lemma tally_lookup w probs0 sigs s :
  foldl (accumulate w) probs0 sigs !! s =
    if decide (count_sig s sigs = 0%nat) then probs0 !! s
    else Some (Nat.iter (count_sig s sigs) (λ q, q + w)
                        (default 0 (probs0 !! s))).
Proof.
  revert probs0. induction sigs as [|tpl sigs IH]; intros probs0; [done|].
  simpl. rewrite IH, count_sig_cons. unfold accumulate.
  destruct (decide (tpl = s)) as [->|Hne].
  - rewrite lookup_insert_eq. simpl.
    destruct (decide (count_sig s sigs = 0%nat)) as [->|]; [done|].
    f_equal. symmetry.
    exact (Nat.iter_succ_r (count_sig s sigs) (λ q, q + w)
             (default 0 (probs0 !! s))).
  - by rewrite lookup_insert_ne.
Qed.

Lemma pair_signatures_perm df df' zagat fodors sigs :
  df ≡ₚ df' → pair_signatures df zagat fodors = Ok sigs →
  ∃ sigs', pair_signatures df' zagat fodors = Ok sigs' ∧ sigs ≡ₚ sigs'.
Proof.
  intros Hp. revert sigs.
  induction Hp as [|row df df' _ IH|r1 r2 df|df1 df2 df3 _ IH1 _ IH2];
    intros sigs Hs.
  - by exists sigs.
  - simpl in *.
    destruct (gen_prob_tuple row.1 row.2 zagat fodors) as [tpl|e];
      simpl in *; [|done].
    destruct (pair_signatures df zagat fodors) as [tpls|e]; simpl in Hs;
      [|done].
    destruct (IH tpls eq_refl) as (tpls' & -> & Hperm). simplify_eq. simpl.
    exists (tpl :: tpls'). by rewrite Hperm.
  - simpl in *.
    destruct (gen_prob_tuple r1.1 r1.2 zagat fodors) as [t1|e];
      destruct (gen_prob_tuple r2.1 r2.2 zagat fodors) as [t2|e'];
      simpl in *; try done.
    destruct (pair_signatures df zagat fodors) as [tpls|e]; simpl in *;
      [|done].
    simplify_eq. exists (t1 :: t2 :: tpls). split; [done|]. apply perm_swap.
  - destruct (IH1 _ Hs) as (sigs2 & Hs2 & Hp2).
    destruct (IH2 _ Hs2) as (sigs3 & Hs3 & Hp3).
    exists sigs3. split; [done|]. by etrans.
Qed.

Lemma pair_signatures_elem df zagat fodors sigs s :
  pair_signatures df zagat fodors = Ok sigs →
  s ∈ sigs ↔ ∃ row, row ∈ df ∧ gen_prob_tuple row.1 row.2 zagat fodors = Ok s.
Proof.
  revert sigs. induction df as [|row df IH]; intros sigs Hs; simpl in Hs.
  { simplify_eq. split; [by intros ?%elem_of_nil|].
    by intros (? & ?%elem_of_nil & _). }
  destruct (gen_prob_tuple row.1 row.2 zagat fodors) as [tpl|e] eqn:Hg;
    simpl in Hs; [|done].
  destruct (pair_signatures df zagat fodors) as [tpls|e]; simpl in Hs;
    [|done].
  simplify_eq. rewrite elem_of_cons, (IH tpls eq_refl). split.
  - intros [->|(r & Hr & Hgr)].
    + exists row. split; [left|done].
    + exists r. split; [by right|done].
  - intros (r & [->|Hr]%elem_of_cons & Hgr); [left; congruence|].
    right. eauto.
Qed.

(** The signatures with a bucket are those of the training pairs. *)
Lemma compute_probabilities_dom df zagat fodors probs s :
  compute_probabilities df zagat fodors = Ok probs →
  s ∈ dom probs ↔
    ∃ row, row ∈ df ∧ gen_prob_tuple row.1 row.2 zagat fodors = Ok s.
Proof.
  rewrite compute_probabilities_signatures.
  destruct (pair_signatures df zagat fodors) as [sigs|e] eqn:Hs; simpl;
    [|done].
  intros [= <-]. rewrite <- (pair_signatures_elem _ _ _ _ _ Hs).
  rewrite elem_of_dom, tally_lookup, <- count_sig_elem_of, lookup_empty.
  destruct (decide (count_sig s sigs = 0%nat)); split; done.
Qed.

(** The masses of a returned distribution are not negative. *)
Lemma compute_probabilities_nonneg df zagat fodors probs s :
  compute_probabilities df zagat fodors = Ok probs →
  0 <= default 0 (probs !! s).
Proof.
  intros Hp. destruct (probs !! s) as [q|] eqn:Hq; simpl; [|done].
  pose proof (unit_weight_nonneg df).
  assert (unit_weight df <= q); [|lra].
  eapply compute_probabilities_fold_lower; [exact Hp| |exact Hq].
  intros s' q'. by rewrite lookup_empty.
Qed.

(** X1: gen_prob_tuple raises KeyError exactly when one of the two keys
    is absent from its dataset. *)
Theorem gen_prob_tuple_key_error z_i f_i zagat fodors :
  gen_prob_tuple z_i f_i zagat fodors = Raise KeyError ↔
    zagat !! z_i = None ∨ fodors !! f_i = None.
Proof.
  destruct (zagat !! z_i) as [z|] eqn:Hz.
  2:{ split; [by left|]. intros _. unfold gen_prob_tuple, loc.
      by rewrite Hz. }
  destruct (fodors !! f_i) as [f|] eqn:Hf.
  - split; [|by intros [|]]. intros Hg. exfalso.
    destruct (decide (length z ≤ length f)%nat).
    + by rewrite (gen_prob_tuple_ok _ _ _ _ z f) in Hg.
    + unfold gen_prob_tuple, loc in Hg. rewrite Hz, Hf in Hg. simpl in Hg.
      by rewrite gen_prob_tuple_loop_short in Hg by lia.
  - split; [by right|]. intros _. unfold gen_prob_tuple, loc.
    by rewrite Hz, Hf.
Qed.

(** X2: compute_probabilities raises exactly the error of the first
    training pair for which gen_prob_tuple raises, and returns a
    distribution when there is no such pair. *)
Theorem compute_probabilities_first_error df zagat fodors :
  (∀ e, compute_probabilities df zagat fodors = Raise e ↔
     ∃ k row, df !! k = Some row ∧
       gen_prob_tuple row.1 row.2 zagat fodors = Raise e ∧
       ∀ k' row', (k' < k)%nat → df !! k' = Some row' →
         ∃ tpl, gen_prob_tuple row'.1 row'.2 zagat fodors = Ok tpl) ∧
  ((∀ row, row ∈ df →
      ∃ tpl, gen_prob_tuple row.1 row.2 zagat fodors = Ok tpl) →
   ∃ probs, compute_probabilities df zagat fodors = Ok probs).
Proof.
  split.
  - intros e. rewrite <- pair_signatures_raise.
    rewrite compute_probabilities_signatures.
    destruct (pair_signatures df zagat fodors); simpl.
    + split; intros; discriminate.
    + split; intros [= ->]; done.
  - intros Hall. rewrite compute_probabilities_signatures.
    destruct (pair_signatures df zagat fodors) as [sigs|e] eqn:Hs;
      [by eexists|].
    apply pair_signatures_raise in Hs as (k & row & Hk & Hr & _).
    destruct (Hall row) as [tpl Ht]; [by eapply list_elem_of_lookup_2|].
    congruence.
Qed.

(** X4: the distribution does not depend on the order of the training
    pairs: a reordered table gives the same dictionary. *)
Theorem compute_probabilities_row_order df df' zagat fodors probs :
  df ≡ₚ df' →
  compute_probabilities df zagat fodors = Ok probs →
  compute_probabilities df' zagat fodors = Ok probs.
Proof.
  intros Hp. rewrite !compute_probabilities_signatures.
  destruct (pair_signatures df zagat fodors) as [sigs|e] eqn:Hs; simpl;
    [|done].
  destruct (pair_signatures_perm _ _ _ _ _ Hp Hs) as (sigs' & -> & Hperm).
  simpl. intros [= <-]. f_equal. apply map_eq. intros s.
  rewrite !tally_lookup.
  assert (unit_weight df' = unit_weight df) as ->.
  { unfold unit_weight. by rewrite Hp. }
  by destruct (count_sig_perm s sigs sigs' Hperm).
Qed.
End estimator_extra.

(** ** compute_probabilities over a given arithmetic: the tally *)

Lemma sum_list_with_zero {A} (xs : list A) :
  sum_list_with (λ _, 0%nat) xs = 0%nat.
Proof. induction xs as [|x xs IH]; [done|]. simpl. by rewrite IH. Qed.

Lemma sum_list_with_plus {A} (f g : A → nat) (xs : list A) :
  sum_list_with (λ x, f x + g x)%nat xs =
    (sum_list_with f xs + sum_list_with g xs)%nat.
Proof. induction xs as [|x xs IH]; [done|]. simpl. rewrite IH. lia. Qed.

Lemma sum_list_with_indicator (x : signature) (F : list signature) :
  NoDup F →
  sum_list_with (λ s, if decide (x = s) then 1 else 0)%nat F =
    if decide (x ∈ F) then 1%nat else 0%nat.
Proof.
  induction 1 as [|s F Hnotin Hnd IH]; [done|]. simpl. rewrite IH.
  destruct (decide (x = s)) as [->|Hne].
  - rewrite decide_False by done. rewrite decide_True by left. done.
  - destruct (decide (x ∈ F)).
    + rewrite decide_True by (by right). done.
    + rewrite decide_False; [done|]. by intros [?|?]%elem_of_cons.
Qed.

Lemma sum_list_with_ext {A} (f g : A → nat) (xs : list A) :
  (∀ x, f x = g x) → sum_list_with f xs = sum_list_with g xs.
Proof.
  intros Hfg. induction xs as [|x xs IH]; [done|]. simpl.
  by rewrite Hfg, IH.
Qed.

(** Summing, over the distinct signatures picked by [P], their numbers of
    occurrences in [xs] counts the elements of [xs] picked by [P]. *)
Lemma sum_count_filter (P : signature → Prop) `{!∀ s, Decision (P s)}
    (S xs : list signature) :
  NoDup S → (∀ x, x ∈ xs → x ∈ S) →
  sum_list_with (λ s, count_sig s xs) (filter P S) = length (filter P xs).
Proof.
  intros Hnd. induction xs as [|x xs IH]; intros Hin.
  { apply sum_list_with_zero. }
  rewrite filter_cons.
  rewrite (sum_list_with_ext _
    (λ s, (if decide (x = s) then 1 else 0) + count_sig s xs)%nat).
  2:{ intros s. rewrite count_sig_cons. by destruct (decide (x = s)). }
  rewrite sum_list_with_plus, IH by (intros; apply Hin; by right).
  rewrite sum_list_with_indicator by (by apply NoDup_filter).
  assert (x ∈ S) by (apply Hin; left).
  destruct (decide (P x)).
  - rewrite decide_True by (by apply list_elem_of_filter). done.
  - rewrite decide_False; [done|]. by intros [? _]%list_elem_of_filter.
Qed.

Lemma iter_mul {X} (a b : nat) (f : X → X) (x : X) :
  Nat.iter (a * b) f x = Nat.iter a (Nat.iter b f) x.
Proof.
  induction a as [|a IH]; [done|].
  change (S a * b)%nat with (b + a * b)%nat.
  rewrite Nat.iter_add, IH. done.
Qed.

Lemma iter_ext {X} (n : nat) (f g : X → X) (x : X) :
  (∀ y, f y = g y) → Nat.iter n f x = Nat.iter n g x.
Proof.
  intros Hfg. induction n as [|n IH]; [done|]. simpl. by rewrite IH, Hfg.
Qed.

Lemma forced_eq (f : float → float) (q : float) : forced f q = f q.
Proof. unfold forced. by destruct (PrimFloat.is_nan q). Qed.

(** A long run of additions, cut into blocks. *)
Lemma iter_blocks (a b c : nat) (f : float → float) (x : float) :
  Nat.iter (a * (b * c)) f x =
    Nat.iter a (forced (Nat.iter b (forced (Nat.iter c f)))) x.
Proof.
  rewrite iter_mul. apply iter_ext. intros y.
  rewrite forced_eq, iter_mul. apply iter_ext. intros z.
  by rewrite forced_eq.
Qed.

Section tally_on.
Context `{Similarity} (A : arith).
Implicit Types (zagat fodors : dataset) (df rows : list (Z * Z)).
Implicit Types (probs : gmap signature (a_num A)).
Implicit Types (s : signature) (sigs : list signature).

Lemma compute_probabilities_step_on_raise df zagat fodors e rows :
  foldl (compute_probabilities_step_on A df zagat fodors) (Raise e) rows
    = Raise e.
Proof. induction rows as [|row rows IH]; [done|]. simpl. apply IH. Qed.

Lemma compute_probabilities_on_fold_signatures df zagat fodors rows probs0 :
  foldl (compute_probabilities_step_on A df zagat fodors) (Ok probs0) rows =
    sigs ← pair_signatures rows zagat fodors;
    Ok (foldl (accumulate_on A (a_weight A (length df))) probs0 sigs).
Proof.
  revert probs0. induction rows as [|row rows IH]; intros probs0; [done|].
  simpl. destruct (gen_prob_tuple row.1 row.2 zagat fodors) as [tpl|e]; simpl.
  - rewrite IH. by destruct (pair_signatures rows zagat fodors).
  - apply compute_probabilities_step_on_raise.
Qed.

Lemma compute_probabilities_on_signatures df zagat fodors :
  compute_probabilities_on A df zagat fodors =
    sigs ← pair_signatures df zagat fodors;
    Ok (foldl (accumulate_on A (a_weight A (length df))) ∅ sigs).
Proof. apply compute_probabilities_on_fold_signatures. Qed.

(** The bucket of [s] after the signatures [sigs] have been tallied. *)
Lemma tally_on_lookup (w : a_num A) probs0 sigs s :
  foldl (accumulate_on A w) probs0 sigs !! s =
    if decide (count_sig s sigs = 0%nat) then probs0 !! s
    else Some (Nat.iter (count_sig s sigs) (λ q, a_add A q w)
                        (default (a_zero A) (probs0 !! s))).
Proof.
  revert probs0. induction sigs as [|tpl sigs IH]; intros probs0; [done|].
  simpl. rewrite IH, count_sig_cons. unfold accumulate_on.
  destruct (decide (tpl = s)) as [->|Hne].
  - rewrite lookup_insert_eq. simpl.
    destruct (decide (count_sig s sigs = 0%nat)) as [->|]; [done|].
    f_equal. symmetry.
    exact (Nat.iter_succ_r (count_sig s sigs) (λ q, a_add A q w)
             (default (a_zero A) (probs0 !! s))).
  - by rewrite lookup_insert_ne.
Qed.

Lemma signature_count_sigs df zagat fodors sigs s :
  pair_signatures df zagat fodors = Ok sigs →
  signature_count s df zagat fodors = count_sig s sigs.
Proof.
  unfold signature_count. revert sigs.
  induction df as [|row df IH]; intros sigs Hs; simpl in Hs.
  { by simplify_eq. }
  rewrite filter_cons.
  destruct (gen_prob_tuple row.1 row.2 zagat fodors) as [tpl|e] eqn:Hg;
    simpl in Hs; [|done].
  destruct (pair_signatures df zagat fodors) as [tpls|e]; simpl in Hs;
    [|done].
  simplify_eq. rewrite count_sig_cons, <- (IH tpls eq_refl).
  destruct (decide (tpl = s)) as [->|Hne].
  - by rewrite decide_True.
  - rewrite decide_False; [done|]. congruence.
Qed.

Lemma sum_count_all (S xs : list signature) :
  NoDup S → (∀ x, x ∈ xs → x ∈ S) →
  sum_list_with (λ s, count_sig s xs) S = length xs.
Proof.
  intros Hnd Hin.
  assert (∀ ys : list signature, filter (λ _, True) ys = ys) as Hfilter.
  { induction ys as [|y ys IH]; [done|].
    by rewrite filter_cons, decide_True, IH. }
  rewrite <- (Hfilter S) at 1.
  rewrite (sum_count_filter (λ _, True) S xs Hnd Hin). by rewrite Hfilter.
Qed.

Lemma compute_probabilities_on_buckets df zagat fodors probs :
  compute_probabilities_on A df zagat fodors = Ok probs →
  (∀ s, probs !! s =
     if decide (signature_count s df zagat fodors = 0%nat) then None
     else Some (accumulated_on A (signature_count s df zagat fodors)
                               (a_weight A (length df)))) ∧
  sum_list_with (λ s, signature_count s df zagat fodors)
                (elements (dom probs)) = length df.
Proof.
  rewrite compute_probabilities_on_signatures.
  destruct (pair_signatures df zagat fodors) as [sigs|e] eqn:Hs; simpl;
    [|done].
  intros [= <-].
  assert (∀ s, foldl (accumulate_on A (a_weight A (length df))) ∅ sigs !! s =
     if decide (signature_count s df zagat fodors = 0%nat) then None
     else Some (accumulated_on A (signature_count s df zagat fodors)
                               (a_weight A (length df)))) as Hlookup.
  { intros s. rewrite (signature_count_sigs _ _ _ _ s Hs).
    by rewrite tally_on_lookup, lookup_empty. }
  split; [exact Hlookup|].
  rewrite (sum_list_with_ext _ (λ s, count_sig s sigs)).
  2:{ intros s. by apply signature_count_sigs. }
  rewrite sum_count_all.
  - by apply (pair_signatures_length df zagat fodors).
  - apply NoDup_elements.
  - intros s Hin. rewrite elem_of_elements, elem_of_dom, Hlookup.
    rewrite (signature_count_sigs _ _ _ _ s Hs).
    apply count_sig_elem_of in Hin. by rewrite decide_False.
Qed.

Lemma pair_signatures_replicate (n : nat) (row : Z * Z) zagat fodors s :
  gen_prob_tuple row.1 row.2 zagat fodors = Ok s →
  pair_signatures (replicate n row) zagat fodors = Ok (replicate n s).
Proof.
  intros Hg. induction n as [|n IH]; [done|].
  simpl. by rewrite Hg, IH.
Qed.

Lemma count_sig_replicate (n : nat) s s' :
  count_sig s' (replicate n s) = if decide (s = s') then n else 0%nat.
Proof.
  induction n as [|n IH]; simpl.
  { by destruct (decide (s = s')). }
  rewrite count_sig_cons, IH. by destruct (decide (s = s')).
Qed.

(** A table of [n] pairs of one signature gives one bucket, the result
    of [n] additions of 1 / n. *)
Lemma compute_probabilities_on_replicate (n : nat) (row : Z * Z)
    zagat fodors s :
  gen_prob_tuple row.1 row.2 zagat fodors = Ok s → n ≠ 0%nat →
  compute_probabilities_on A (replicate n row) zagat fodors
    = Ok {[ s := accumulated_on A n (a_weight A n) ]}.
Proof.
  intros Hg Hn. rewrite compute_probabilities_on_signatures.
  rewrite (pair_signatures_replicate n row zagat fodors s Hg). simpl.
  rewrite length_replicate. f_equal. apply map_eq. intros s'.
  rewrite tally_on_lookup, count_sig_replicate, lookup_empty.
  destruct (decide (s = s')) as [->|Hne].
  - rewrite decide_False by done. by rewrite lookup_singleton_eq.
  - by rewrite lookup_singleton_ne.
Qed.
End tally_on.

(** 46,000,000 additions of 1 / 46,000,000 in doubles. *)
Lemma accumulated_on_binary64_46e6 :
  accumulated_on binary64 (46 * (1000 * 1000))
                 (a_weight binary64 (46 * (1000 * 1000)))
    = 0x1.fffffff706a4p-1%float.
Proof.
  assert (a_weight binary64 (46 * (1000 * 1000))
          = 0x1.7579b4ee6db34p-26%float) as ->.
  { change (a_weight binary64 ?n) with (1 / float_of_nat n)%float.
    unfold float_of_nat. rewrite !Nat2N.inj_mul.
    assert (N.of_nat 46 * (N.of_nat 1000 * N.of_nat 1000) = 46000000)%N
      as -> by (vm_compute; reflexivity).
    vm_compute. reflexivity. }
  unfold accumulated_on. rewrite iter_blocks.
  vm_compute. reflexivity.
Qed.



(** ** Further properties of put_labels *)

Section put_labels_extra.
Implicit Types (l : list prob_tuple) (mu : Q) (s : signature).
Implicit Types (t : prob_tuple).

(** While the running sum starts within the bound, an element whose mass
    is not positive is always flagged. *)
Lemma sweep_hit_nonpos bound acc xs i x :
  acc <= bound → xs !! i = Some x → x <= 0 →
  sweep bound acc xs !! i = Some true.
Proof.
  revert acc i. induction xs as [|y xs IH]; intros acc [|i] Hacc Hx Hle;
    simplify_eq/=.
  - assert (Qle_bool (acc + x) bound = true) as ->; [|done].
    apply Qle_bool_iff. lra.
  - destruct (Qle_bool (acc + y) bound) eqn:E; simpl; apply IH; try done.
    + by apply Qle_bool_iff.
    + lra.
Qed.

(** With mu >= 0 a tuple whose unmatch-mass is not positive is reached by
    the head sweep. *)
Lemma put_labels_nonpos_unmatch l mu lambda_ t :
  0 <= mu → t ∈ l → unmatch_prob t <= 0 →
  put_labels l mu lambda_ !! sim_of t = Some Match.
Proof.
  intros Hmu [i Hi]%list_elem_of_lookup_1 Hle.
  rewrite put_labels_lookup. case_decide as Hr; [done|]. destruct Hr.
  apply elem_of_reached. exists i. split.
  - apply (sweep_hit_nonpos _ _ _ _ (unmatch_prob t)); [done| |done].
    by rewrite list_lookup_fmap, Hi.
  - by rewrite list_lookup_fmap, Hi.
Qed.

(** With lambda_ >= 0 a tuple whose match-mass is not positive is reached
    by the tail sweep. *)
Lemma put_labels_nonpos_match l mu lambda_ t :
  0 <= lambda_ → t ∈ l → match_prob t <= 0 →
  put_labels l mu lambda_ !! sim_of t = Some Unmatch ∨
  put_labels l mu lambda_ !! sim_of t = Some Match.
Proof.
  intros Hlam Ht Hle. rewrite <- elem_of_reverse in Ht.
  apply list_elem_of_lookup_1 in Ht as [i Hi].
  rewrite put_labels_lookup. case_decide as Hh; [by right|].
  case_decide as Hr; [by left|]. destruct Hr.
  apply elem_of_reached. exists i. split.
  - apply (sweep_hit_nonpos _ _ _ _ (match_prob t)); [done| |done].
    by rewrite list_lookup_fmap, Hi.
  - by rewrite list_lookup_fmap, Hi.
Qed.

(** X5: the dictionary returned by put_labels has a label for every
    signature of the ranked list and for no other signature. *)
Theorem put_labels_keys l mu lambda_ :
  dom (put_labels l mu lambda_) = list_to_set (sim_of <$> l).
Proof. apply put_labels_dom. Qed.

(** X8: when mu >= 0, a signature of the list whose unmatch-mass is 0 is
    labelled 'match', wherever it stands in the list and whatever
    lambda_ is. *)
Theorem put_labels_zero_unmatch_mass l mu lambda_ t :
  0 <= mu → t ∈ l → unmatch_prob t <= 0 →
  put_labels l mu lambda_ !! sim_of t = Some Match.
Proof. apply put_labels_nonpos_unmatch. Qed.

(** X9: when lambda_ >= 0, a signature of the list whose match-mass is 0
    is never left as 'possible match': it is labelled 'unmatch', or
    'match' when the head sweep reaches it. *)
Theorem put_labels_zero_match_mass l mu lambda_ t :
  0 <= lambda_ → t ∈ l → match_prob t <= 0 →
  put_labels l mu lambda_ !! sim_of t = Some Unmatch ∨
  put_labels l mu lambda_ !! sim_of t = Some Match.
Proof. apply put_labels_nonpos_match. Qed.

End put_labels_extra.




(** ** Properties of find_matches *)

Section find_matches_extra.
Context `{Similarity}.
Implicit Types (zagat fodors : frame) (d : gmap signature label).
Implicit Types (st : writer_state) (ps : list (Z * Z)) (r : out_row).
Implicit Types (s : signature) (b : bool).

Lemma write_rows_flat b d zagat fodors :
  write_rows b d zagat fodors =
    write_run b d zagat fodors ([], None) (index_pairs zagat fodors).
Proof.
  unfold write_rows, write_run, index_pairs.
  generalize (([], None) : writer_state) as st.
  induction (frame_index zagat) as [|i idx IH]; intros st; [done|].
  simpl. rewrite foldl_app, foldl_fmap. apply IH.
Qed.

Lemma length_index_pairs zagat fodors :
  length (index_pairs zagat fodors) =
    (length (frame_index zagat) * length (frame_index fodors))%nat.
Proof.
  unfold index_pairs.
  induction (frame_index zagat) as [|i idx IH]; [done|].
  by rewrite bind_cons, length_app, length_fmap, IH.
Qed.

Lemma elem_of_index_pairs zagat fodors i j :
  (i, j) ∈ index_pairs zagat fodors ↔
    i ∈ frame_index zagat ∧ j ∈ frame_index fodors.
Proof.
  unfold index_pairs. rewrite list_elem_of_bind. split.
  - intros (i' & (j' & [= -> ->] & Hj)%list_elem_of_fmap & Hi). done.
  - intros [Hi Hj]. exists i. split; [|done].
    apply list_elem_of_fmap. by exists j.
Qed.

Lemma write_run_error b d zagat fodors rows e ps :
  write_run b d zagat fodors (rows, Some e) ps = (rows, Some e).
Proof. induction ps as [|p ps IH]; [done|]. apply IH. Qed.

Lemma write_run_cons b d zagat fodors rows p ps :
  write_run b d zagat fodors (rows, None) (p :: ps) =
    match write_pair b d zagat fodors p.1 p.2 with
    | Ok None => write_run b d zagat fodors (rows, None) ps
    | Ok (Some r) => write_run b d zagat fodors (rows ++ [r], None) ps
    | Raise e => (rows, Some e)
    end.
Proof.
  unfold write_run at 1. simpl. unfold write_step at 2. simpl.
  destruct (write_pair b d zagat fodors p.1 p.2) as [[r|]|e]; try done.
  apply write_run_error.
Qed.

(** When no pair raises, the rows written are those of the pairs that are
    not skipped, in order. *)
Lemma write_run_ok b d zagat fodors rows ps (os : list (option out_row)) :
  Forall2 (λ p o, write_pair b d zagat fodors p.1 p.2 = Ok o) ps os →
  write_run b d zagat fodors (rows, None) ps = (rows ++ omap id os, None).
Proof.
  intros Hos. revert rows.
  induction Hos as [|p o ps os Hp _ IH]; intros rows.
  { simpl. by rewrite app_nil_r. }
  rewrite write_run_cons, Hp. destruct o as [r|]; simpl.
  - rewrite IH. by rewrite <- app_assoc.
  - apply IH.
Qed.

Lemma write_run_completed b d zagat fodors rows0 rows ps :
  write_run b d zagat fodors (rows0, None) ps = (rows, None) →
  ∃ os, Forall2 (λ p o, write_pair b d zagat fodors p.1 p.2 = Ok o) ps os ∧
        rows = rows0 ++ omap id os.
Proof.
  revert rows0. induction ps as [|p ps IH]; intros rows0.
  { intros [= <-]. exists []. split; [constructor|]. by rewrite app_nil_r. }
  rewrite write_run_cons.
  destruct (write_pair b d zagat fodors p.1 p.2) as [[r|]|e] eqn:Hp;
    [| |done].
  - intros (os & Hos & ->)%IH. exists (Some r :: os).
    split; [by constructor|]. simpl. by rewrite <- app_assoc.
  - intros (os & Hos & ->)%IH. exists (None :: os).
    split; [by constructor|done].
Qed.

(** Every row in the file was written for one of the visited pairs. *)
Lemma write_run_elem b d zagat fodors st ps r :
  r ∈ (write_run b d zagat fodors st ps).1 →
  r ∈ st.1 ∨ ∃ p, p ∈ ps ∧ write_pair b d zagat fodors p.1 p.2 = Ok (Some r).
Proof.
  revert st. induction ps as [|p ps IH]; intros [rows [e|]].
  - by left.
  - by left.
  - rewrite write_run_error. by left.
  - rewrite write_run_cons.
    destruct (write_pair b d zagat fodors p.1 p.2) as [[r'|]|e] eqn:Hp.
    + intros [Hr|(p' & Hp' & Hw)]%IH; simpl in *.
      * apply elem_of_app in Hr as [Hr|Hr%list_elem_of_singleton];
          [by left|]. subst r'. right. exists p. split; [left|done].
      * right. exists p'. split; [by right|done].
    + intros [Hr|(p' & Hp' & Hw)]%IH; [by left|].
      right. exists p'. split; [by right|done].
    + by left.
Qed.

Lemma write_pair_row b d zagat fodors i j r :
  write_pair b d zagat fodors i j = Ok (Some r) →
  (∃ s, gen_prob_tuple i j (frame_data zagat) (frame_data fodors) = Ok s ∧
        r = (i, j, output_label d s)) ∧
  (b = true → city_differs zagat fodors i j = Ok false).
Proof.
  unfold write_pair, row_label. intros Hw.
  assert ((if b then city_differs zagat fodors i j else Ok false) = Ok false)
    as Hskip.
  { destruct (if b then _ else _) as [[]|]; simpl in Hw; done. }
  rewrite Hskip in Hw. simpl in Hw. split.
  - destruct (gen_prob_tuple i j _ _) as [s|e]; simpl in Hw; [|done].
    simplify_eq. by exists s.
  - by intros ->.
Qed.

Lemma find_matches_inv match_ unmatch zagat fodors mu lambda_ b st :
  find_matches match_ unmatch zagat fodors mu lambda_ b = Ok st →
  ∃ mp up,
    compute_probabilities match_ (frame_data zagat) (frame_data fodors)
      = Ok mp ∧
    compute_probabilities unmatch (frame_data zagat) (frame_data fodors)
      = Ok up ∧
    st = write_rows b (put_labels (ordered_probabilities mp up) mu lambda_)
           zagat fodors.
Proof.
  unfold find_matches, label_dict_of.
  destruct (compute_probabilities match_ _ _) as [mp|e]; simpl; [|done].
  destruct (compute_probabilities unmatch _ _) as [up|e]; simpl; [|done].
  intros [= <-]. by exists mp, up.
Qed.

(** The row written for a pair carries the label of the pair's
    signature. *)
Lemma find_matches_row match_ unmatch zagat fodors mu lambda_ b rows e i j lab :
  find_matches match_ unmatch zagat fodors mu lambda_ b = Ok (rows, e) →
  (i, j, lab) ∈ rows →
  ∃ mp up s,
    compute_probabilities match_ (frame_data zagat) (frame_data fodors)
      = Ok mp ∧
    compute_probabilities unmatch (frame_data zagat) (frame_data fodors)
      = Ok up ∧
    gen_prob_tuple i j (frame_data zagat) (frame_data fodors) = Ok s ∧
    lab = output_label
            (put_labels (ordered_probabilities mp up) mu lambda_) s ∧
    (b = true → city_differs zagat fodors i j = Ok false).
Proof.
  intros (mp & up & Hmp & Hup & Hst)%find_matches_inv Hr.
  exists mp, up. rewrite write_rows_flat in Hst.
  assert ((i, j, lab) ∈ (write_run b
            (put_labels (ordered_probabilities mp up) mu lambda_)
            zagat fodors ([], None) (index_pairs zagat fodors)).1) as Hel
    by (by rewrite <- Hst).
  apply write_run_elem in Hel as [Hel|([i' j'] & _ & Hw)];
    [by apply elem_of_nil in Hel|].
  apply write_pair_row in Hw as [(s & Hs & Heq) Hcity]. simplify_eq/=.
  by exists s.
Qed.

Lemma omap_id_Some {A} (xs : list A) : omap id (Some <$> xs) = xs.
Proof. induction xs as [|x xs IH]; [done|]. rewrite fmap_cons. simpl. by f_equal. Qed.

Lemma write_pair_unblocked d zagat fodors i j s :
  gen_prob_tuple i j (frame_data zagat) (frame_data fodors) = Ok s →
  write_pair false d zagat fodors i j = Ok (Some (i, j, output_label d s)).
Proof. intros Hs. unfold write_pair, row_label. simpl. by rewrite Hs. Qed.

(** X11: without blocking, when every pair of index values has a
    signature, the loops run to the end and write one row per pair of the
    cross product, in the order of the two loops (rows of the first table
    outermost), each with the label of the pair's signature. *)
Theorem write_rows_cross_product d zagat fodors :
  (∀ i j, i ∈ frame_index zagat → j ∈ frame_index fodors →
     ∃ s, gen_prob_tuple i j (frame_data zagat) (frame_data fodors) = Ok s) →
  ∃ rows,
    write_rows false d zagat fodors = (rows, None) ∧
    Forall2 (λ r p,
       ∃ s, gen_prob_tuple p.1 p.2 (frame_data zagat) (frame_data fodors)
              = Ok s ∧ r = (p.1, p.2, output_label d s))
      rows (index_pairs zagat fodors) ∧
    length rows =
      (length (frame_index zagat) * length (frame_index fodors))%nat.
Proof.
  intros Hall. rewrite write_rows_flat, <- length_index_pairs.
  assert (∀ p, p ∈ index_pairs zagat fodors →
    ∃ s, gen_prob_tuple p.1 p.2 (frame_data zagat) (frame_data fodors)
           = Ok s) as Hps.
  { intros [i j] [Hi Hj]%elem_of_index_pairs. by apply Hall. }
  clear Hall.
  assert (∃ rows,
    Forall2 (λ p o, write_pair false d zagat fodors p.1 p.2 = Ok o)
      (index_pairs zagat fodors) (Some <$> rows) ∧
    Forall2 (λ r p,
       ∃ s, gen_prob_tuple p.1 p.2 (frame_data zagat) (frame_data fodors)
              = Ok s ∧ r = (p.1, p.2, output_label d s))
      rows (index_pairs zagat fodors)) as (rows & Hw & Hrows).
  { induction (index_pairs zagat fodors) as [|p ps IH].
    { exists []. split; constructor. }
    destruct (Hps p) as [s Hs]; [left|].
    destruct IH as (rows & Hw & Hrows).
    { intros p' Hp'. apply Hps. by right. }
    exists ((p.1, p.2, output_label d s) :: rows). split.
    - rewrite fmap_cons. constructor; [|done].
      by apply write_pair_unblocked.
    - constructor; [|done]. by exists s. }
  exists rows. split_and!; [|done|by eapply Forall2_length].
  rewrite (write_run_ok _ _ _ _ _ _ _ Hw). simpl. by rewrite omap_id_Some.
Qed.

(** X12: with block_on_city set, every row in the output joins two
    records whose 'city' values are equal. *)
Theorem find_matches_block_on_city match_ unmatch zagat fodors mu lambda_
    rows e i j lab :
  find_matches match_ unmatch zagat fodors mu lambda_ true = Ok (rows, e) →
  (i, j, lab) ∈ rows →
  ∃ c, loc_col zagat i "city" = Ok c ∧ loc_col fodors j "city" = Ok c.
Proof.
  intros Hfm Hr.
  destruct (find_matches_row _ _ _ _ _ _ _ _ _ _ _ _ Hfm Hr)
    as (_ & _ & _ & _ & _ & _ & _ & Hcity).
  specialize (Hcity eq_refl). unfold city_differs in Hcity.
  destruct (loc_col zagat i "city") as [zc|]; simpl in Hcity; [|done].
  destruct (loc_col fodors j "city") as [fc|]; simpl in Hcity; [|done].
  exists zc. split; [done|]. f_equal.
  destruct (String.eqb zc fc) eqn:E; [|done]. symmetry.
  by apply String.eqb_eq.
Qed.

(** X13: when the run without blocking completes and every pair has its
    two 'city' values, the run with blocking completes too and writes
    exactly the rows of the first run whose cities are equal, in the same
    order. *)
Theorem write_rows_blocked_filter d zagat fodors rows :
  write_rows false d zagat fodors = (rows, None) →
  (∀ i j, i ∈ frame_index zagat → j ∈ frame_index fodors →
     ∃ b, city_differs zagat fodors i j = Ok b) →
  write_rows true d zagat fodors =
    (filter (λ r, city_differs zagat fodors r.1.1 r.1.2 = Ok false) rows,
     None).
Proof.
  rewrite !write_rows_flat. intros (os & Hos & ->)%write_run_completed Hcity.
  assert (∀ p, p ∈ index_pairs zagat fodors →
    ∃ b, city_differs zagat fodors p.1 p.2 = Ok b) as Hps.
  { intros [i j] [Hi Hj]%elem_of_index_pairs. by apply Hcity. }
  clear Hcity.
  assert (∃ os',
    Forall2 (λ p o, write_pair true d zagat fodors p.1 p.2 = Ok o)
      (index_pairs zagat fodors) os' ∧
    omap id os' =
      filter (λ r, city_differs zagat fodors r.1.1 r.1.2 = Ok false)
             (omap id os)) as (os' & Hos' & Heq).
  { induction Hos as [|p o ps os Hp Hos IH].
    { exists []. split; [constructor|done]. }
    destruct IH as (os' & Hos' & Heq).
    { intros p' Hp'. apply Hps. by right. }
    destruct (Hps p) as [b Hb]; [left|].
    assert (∃ r, o = Some r ∧ r.1 = p) as (r & -> & Hr).
    { unfold write_pair in Hp. simpl in Hp.
      destruct (row_label d p.1 p.2 _ _) as [lab|]; simpl in Hp; [|done].
      simplify_eq. eexists. split; [done|]. by destruct p. }
    assert (write_pair true d zagat fodors p.1 p.2 =
            if b then Ok None else Ok (Some r)) as Hp'.
    { unfold write_pair in *. simpl in *. rewrite Hb. simpl.
      by destruct b. }
    assert (omap id (Some r :: os) = r :: omap id os) as -> by done.
    rewrite filter_cons, Hr, Hb.
    destruct b.
    - exists (None :: os'). split; [by constructor|].
      by rewrite decide_False.
    - exists (Some r :: os'). split; [by constructor|].
      rewrite decide_True by done.
      assert (omap id (Some r :: os') = r :: omap id os') as -> by done.
      by rewrite Heq. }
  by rewrite (write_run_ok _ _ _ _ _ _ _ Hos'), Heq.
Qed.

Lemma put_labels_ordered_lookup_None mp up mu lambda_ s :
  s ∉ dom mp → s ∉ dom up →
  put_labels (ordered_probabilities mp up) mu lambda_ !! s = None.
Proof.
  intros Hmp Hup. apply not_elem_of_dom. rewrite put_labels_dom.
  rewrite elem_of_list_to_set. unfold ordered_probabilities.
  rewrite ordered_probabilities_from_sims, elem_of_elements. set_solver.
Qed.

(** X14: a pair whose signature occurs for no training pair, match or
    unmatch, is written with the label 'possible match'. *)
Theorem find_matches_unseen_signature match_ unmatch zagat fodors mu lambda_
    b rows e i j lab s :
  find_matches match_ unmatch zagat fodors mu lambda_ b = Ok (rows, e) →
  (i, j, lab) ∈ rows →
  gen_prob_tuple i j (frame_data zagat) (frame_data fodors) = Ok s →
  (∀ row, row ∈ match_ ++ unmatch →
     gen_prob_tuple row.1 row.2 (frame_data zagat) (frame_data fodors)
       ≠ Ok s) →
  lab = PossibleMatch.
Proof.
  intros Hfm Hr Hs Hunseen.
  destruct (find_matches_row _ _ _ _ _ _ _ _ _ _ _ _ Hfm Hr)
    as (mp & up & s' & Hmp & Hup & Hs' & -> & _).
  assert (s' = s) as -> by congruence.
  unfold output_label. rewrite put_labels_ordered_lookup_None; [done|..].
  - rewrite (compute_probabilities_dom _ _ _ _ _ Hmp).
    intros (row & Hrow & Hg). apply (Hunseen row); [|done].
    apply elem_of_app. by left.
  - rewrite (compute_probabilities_dom _ _ _ _ _ Hup).
    intros (row & Hrow & Hg). apply (Hunseen row); [|done].
    apply elem_of_app. by right.
Qed.

(** X15: when mu >= 0, a pair whose signature occurs among the known
    matches and for no known unmatch is written with the label 'match',
    whatever lambda_ is. *)
Theorem find_matches_match_only_signature match_ unmatch zagat fodors mu
    lambda_ b rows e i j lab s :
  find_matches match_ unmatch zagat fodors mu lambda_ b = Ok (rows, e) →
  (i, j, lab) ∈ rows →
  gen_prob_tuple i j (frame_data zagat) (frame_data fodors) = Ok s →
  (∃ row, row ∈ match_ ∧
     gen_prob_tuple row.1 row.2 (frame_data zagat) (frame_data fodors)
       = Ok s) →
  (∀ row, row ∈ unmatch →
     gen_prob_tuple row.1 row.2 (frame_data zagat) (frame_data fodors)
       ≠ Ok s) →
  0 <= mu →
  lab = Match.
Proof.
  intros Hfm Hr Hs Hseen Hunseen Hmu.
  destruct (find_matches_row _ _ _ _ _ _ _ _ _ _ _ _ Hfm Hr)
    as (mp & up & s' & Hmp & Hup & Hs' & -> & _).
  assert (s' = s) as -> by congruence.
  assert (s ∈ dom mp) as Hin
    by (by rewrite (compute_probabilities_dom _ _ _ _ _ Hmp)).
  assert (up !! s = None) as Hnone.
  { apply not_elem_of_dom.
    rewrite (compute_probabilities_dom _ _ _ _ _ Hup).
    intros (row & Hrow & Hg). by apply (Hunseen row). }
  unfold output_label.
  assert (put_labels (ordered_probabilities mp up) mu lambda_ !! s
          = Some Match) as ->; [|done].
  apply (put_labels_nonpos_unmatch _ mu lambda_ (prob_tuple_of mp up s));
    [done| |].
  - apply elem_of_ordered_probabilities. split; [|done]. simpl. set_solver.
  - unfold unmatch_prob, prob_tuple_of. simpl. by rewrite Hnone.
Qed.

(** X16: when lambda_ >= 0, a pair whose signature occurs among the known
    unmatches and for no known match is never written as 'possible
    match'. *)
Theorem find_matches_unmatch_only_signature match_ unmatch zagat fodors mu
    lambda_ b rows e i j lab s :
  find_matches match_ unmatch zagat fodors mu lambda_ b = Ok (rows, e) →
  (i, j, lab) ∈ rows →
  gen_prob_tuple i j (frame_data zagat) (frame_data fodors) = Ok s →
  (∃ row, row ∈ unmatch ∧
     gen_prob_tuple row.1 row.2 (frame_data zagat) (frame_data fodors)
       = Ok s) →
  (∀ row, row ∈ match_ →
     gen_prob_tuple row.1 row.2 (frame_data zagat) (frame_data fodors)
       ≠ Ok s) →
  0 <= lambda_ →
  lab = Unmatch ∨ lab = Match.
Proof.
  intros Hfm Hr Hs Hseen Hunseen Hlam.
  destruct (find_matches_row _ _ _ _ _ _ _ _ _ _ _ _ Hfm Hr)
    as (mp & up & s' & Hmp & Hup & Hs' & -> & _).
  assert (s' = s) as -> by congruence.
  assert (s ∈ dom up) as Hin
    by (by rewrite (compute_probabilities_dom _ _ _ _ _ Hup)).
  assert (mp !! s = None) as Hnone.
  { apply not_elem_of_dom.
    rewrite (compute_probabilities_dom _ _ _ _ _ Hmp).
    intros (row & Hrow & Hg). by apply (Hunseen row). }
  unfold output_label.
  destruct (put_labels_nonpos_match (ordered_probabilities mp up) mu lambda_
              (prob_tuple_of mp up s)) as [Hl|Hl]; [done| | | |].
  - apply elem_of_ordered_probabilities. split; [|done]. simpl. set_solver.
  - unfold match_prob, prob_tuple_of. simpl. by rewrite Hnone.
  - left. change (sim_of (prob_tuple_of mp up s)) with s in Hl.
    by rewrite Hl.
  - right. change (sim_of (prob_tuple_of mp up s)) with s in Hl.
    by rewrite Hl.
Qed.

Lemma write_run_app b d zagat fodors st ps1 ps2 :
  write_run b d zagat fodors st (ps1 ++ ps2) =
    write_run b d zagat fodors (write_run b d zagat fodors st ps1) ps2.
Proof. unfold write_run. apply foldl_app. Qed.

Lemma write_run_failed b d zagat fodors rows0 rows e ps :
  write_run b d zagat fodors (rows0, None) ps = (rows, Some e) →
  ∃ ps1 p ps2 os,
    ps = ps1 ++ p :: ps2 ∧
    Forall2 (λ p o, write_pair b d zagat fodors p.1 p.2 = Ok o) ps1 os ∧
    rows = rows0 ++ omap id os ∧
    write_pair b d zagat fodors p.1 p.2 = Raise e.
Proof.
  revert rows0. induction ps as [|p ps IH]; intros rows0; [done|].
  rewrite write_run_cons.
  destruct (write_pair b d zagat fodors p.1 p.2) as [[r|]|e'] eqn:Hp.
  - intros (ps1 & p' & ps2 & os & -> & Hos & -> & Hp')%IH.
    exists (p :: ps1), p', ps2, (Some r :: os).
    split_and!; [done|by constructor| |done].
    simpl. by rewrite <- app_assoc.
  - intros (ps1 & p' & ps2 & os & -> & Hos & -> & Hp')%IH.
    exists (p :: ps1), p', ps2, (None :: os).
    split_and!; [done|by constructor|done..].
  - intros [= <- <-]. exists [], p, ps, [].
    split_and!; [done|constructor| |done]. by rewrite app_nil_r.
Qed.

(** X19: the output loops end with an exception exactly when some visited
    pair raises it; the loops stop at the first such pair, and the rows of
    the pairs visited before it stay written. *)
Theorem write_rows_first_error b d zagat fodors rows e :
  write_rows b d zagat fodors = (rows, Some e) ↔
    ∃ ps1 p ps2 os,
      index_pairs zagat fodors = ps1 ++ p :: ps2 ∧
      Forall2 (λ p o, write_pair b d zagat fodors p.1 p.2 = Ok o) ps1 os ∧
      rows = omap id os ∧
      write_pair b d zagat fodors p.1 p.2 = Raise e.
Proof.
  rewrite write_rows_flat. split.
  - intros (ps1 & p & ps2 & os & Hps & Hos & -> & Hp)%write_run_failed.
    by exists ps1, p, ps2, os.
  - intros (ps1 & p & ps2 & os & -> & Hos & -> & Hp).
    rewrite write_run_app, (write_run_ok _ _ _ _ _ _ _ Hos).
    by rewrite write_run_cons, Hp.
Qed.
End find_matches_extra.

(** ** The label dictionary on the training pairs *)

Section training_rates.
Context `{Similarity}.
Implicit Types (zagat fodors : dataset) (df : list (Z * Z)).
Implicit Types (s : signature) (sigs : list signature).
Implicit Types (mp up probs : gmap signature Q).

(** The tuple of a signature in the ranked list carries the two masses
    of the signature. *)
Lemma ordered_probabilities_tuple mp up s :
  s ∈ sim_of <$> ordered_probabilities mp up →
  (s, default 0 (mp !! s), default 0 (up !! s))
    ∈ ordered_probabilities mp up.
Proof.
  intros (t & -> & Ht)%list_elem_of_fmap.
  pose proof Ht as [_ Heq]%elem_of_ordered_probabilities.
  by rewrite Heq in Ht.
Qed.

Lemma label_dict_match_le match_ unmatch zagat fodors mu lambda_ d up s :
  label_dict_of match_ unmatch zagat fodors mu lambda_ = Ok d →
  compute_probabilities unmatch zagat fodors = Ok up →
  0 <= mu → d !! s = Some Match → default 0 (up !! s) <= mu.
Proof.
  unfold label_dict_of. intros Hd Hup Hmu Hs.
  destruct (compute_probabilities match_ zagat fodors) as [mp|] eqn:Hmp;
    simpl in Hd; [|done].
  rewrite Hup in Hd. simpl in Hd. injection Hd as <-.
  assert (s ∈ sim_of <$> ordered_probabilities mp up) as Hin.
  { apply (elem_of_list_to_set (C := gset signature)).
    rewrite <- (put_labels_dom _ mu lambda_). apply elem_of_dom.
    by eexists. }
  apply ordered_probabilities_tuple in Hin.
  rewrite <- put_labels_on_exact in Hs.
  apply Qle_bool_iff.
  apply (put_labels_on_match_le exact exact_laws
           (ordered_probabilities mp up) mu lambda_
           (s, default 0 (mp !! s), default 0 (up !! s))); try done.
  - apply ordered_probabilities_NoDup.
  - intros p [_ ->]%elem_of_ordered_probabilities.
    apply Qle_bool_iff. by eapply compute_probabilities_nonneg.
  - by apply Qle_bool_iff.
Qed.

Lemma label_dict_unmatch_le match_ unmatch zagat fodors mu lambda_ d mp s :
  label_dict_of match_ unmatch zagat fodors mu lambda_ = Ok d →
  compute_probabilities match_ zagat fodors = Ok mp →
  0 <= lambda_ → d !! s = Some Unmatch → default 0 (mp !! s) <= lambda_.
Proof.
  unfold label_dict_of. intros Hd Hmp Hla Hs.
  rewrite Hmp in Hd. simpl in Hd.
  destruct (compute_probabilities unmatch zagat fodors) as [up|] eqn:Hup;
    simpl in Hd; [|done].
  injection Hd as <-.
  assert (s ∈ sim_of <$> ordered_probabilities mp up) as Hin.
  { apply (elem_of_list_to_set (C := gset signature)).
    rewrite <- (put_labels_dom _ mu lambda_). apply elem_of_dom.
    by eexists. }
  apply ordered_probabilities_tuple in Hin.
  rewrite <- put_labels_on_exact in Hs.
  apply Qle_bool_iff.
  apply (put_labels_on_unmatch_le exact exact_laws
           (ordered_probabilities mp up) mu lambda_
           (s, default 0 (mp !! s), default 0 (up !! s))); try done.
  - apply ordered_probabilities_NoDup.
  - intros p [_ ->]%elem_of_ordered_probabilities.
    apply Qle_bool_iff. by eapply compute_probabilities_nonneg.
  - by apply Qle_bool_iff.
Qed.



(** X21: the label dictionary built by find_matches (lines 39-42) has an
    entry exactly for the signatures of the training pairs, known matches
    and known unmatches together. *)
Theorem label_dict_keys match_ unmatch zagat fodors mu lambda_ d s :
  label_dict_of match_ unmatch zagat fodors mu lambda_ = Ok d →
  s ∈ dom d ↔
    ∃ row, row ∈ match_ ++ unmatch ∧
           gen_prob_tuple row.1 row.2 zagat fodors = Ok s.
Proof.
  unfold label_dict_of. intros Hd.
  destruct (compute_probabilities match_ zagat fodors) as [mp|] eqn:Hmp;
    simpl in Hd; [|done].
  destruct (compute_probabilities unmatch zagat fodors) as [up|] eqn:Hup;
    simpl in Hd; [|done].
  injection Hd as <-.
  rewrite put_labels_dom, elem_of_list_to_set. unfold ordered_probabilities.
  rewrite ordered_probabilities_from_sims, elem_of_elements, elem_of_union.
  rewrite (compute_probabilities_dom _ _ _ _ _ Hmp),
    (compute_probabilities_dom _ _ _ _ _ Hup).
  setoid_rewrite elem_of_app. naive_solver.
Qed.
End training_rates.

(** ** The further properties at concrete inputs *)

(** Case analysis on membership in an explicit list. *)
Ltac elem_cases H :=
  repeat (apply elem_of_cons in H as [H|H]; [subst|]);
  [..|by apply elem_of_nil in H].

Lemma compute_probabilities_row_order_witness :
  [(1, 3); (1, 1); (1, 1); (1, 3)]%Z ≠ ex_pairs ∧
  compute_probabilities (H := ex_similarity)
    [(1, 3); (1, 1); (1, 1); (1, 3)]%Z ex_zagat ex_fodors
    = Ok ex_match_probs.
Proof.
  split; [discriminate|].
  apply (compute_probabilities_row_order (H := ex_similarity)
           ex_pairs [(1, 3); (1, 1); (1, 1); (1, 3)]%Z
           ex_zagat ex_fodors ex_match_probs).
  - unfold ex_pairs.
    exact (perm_trans (perm_swap (1, 3)%Z (1, 1)%Z [(1, 3); (1, 1)]%Z)
             (perm_skip (1, 3)%Z (perm_skip (1, 1)%Z
                (perm_swap (1, 1)%Z (1, 3)%Z [])))).
  - vm_compute. reflexivity.
Defined.

Lemma put_labels_zero_unmatch_mass_witness :
  put_labels ex_ranked 0 1 !! ex_hh = Some Match.
Proof.
  apply (put_labels_zero_unmatch_mass ex_ranked 0 1 (ex_hh, 1, 0)).
  - vm_compute. discriminate.
  - left.
  - vm_compute. discriminate.
Defined.

Lemma put_labels_zero_match_mass_witness :
  put_labels ex_ranked 0 0 !! ex_lh = Some Unmatch ∨
  put_labels ex_ranked 0 0 !! ex_lh = Some Match.
Proof.
  apply (put_labels_zero_match_mass ex_ranked 0 0 (ex_lh, 0, 1)).
  - vm_compute. discriminate.
  - right. left.
  - vm_compute. discriminate.
Defined.

Lemma write_rows_cross_product_witness :
  ∃ rows,
    write_rows (H := ex_similarity) false ex_label_dict
      ex_zagat_frame ex_fodors_frame = (rows, None) ∧
    Forall2 (λ r p,
       ∃ s, gen_prob_tuple (H := ex_similarity) p.1 p.2
              (frame_data ex_zagat_frame) (frame_data ex_fodors_frame)
              = Ok s ∧ r = (p.1, p.2, output_label ex_label_dict s))
      rows (index_pairs ex_zagat_frame ex_fodors_frame) ∧
    length rows =
      (length (frame_index ex_zagat_frame)
       * length (frame_index ex_fodors_frame))%nat.
Proof.
  apply (write_rows_cross_product (H := ex_similarity)).
  intros i j Hi Hj. unfold frame_index in Hi, Hj. simpl in Hi, Hj.
  elem_cases Hi; elem_cases Hj; eexists; vm_compute; reflexivity.
Defined.

Lemma find_matches_block_on_city_witness :
  ∃ c, loc_col ex_zagat_frame 1 "city" = Ok c ∧
       loc_col ex_fodors_frame 2 "city" = Ok c.
Proof.
  apply (find_matches_block_on_city (H := ex_similarity)
           [(1, 1)%Z] [(1, 2)%Z] ex_zagat_frame ex_fodors_frame
           (1 # 2) (1 # 2) ex_rows_blocked None 1 2 Unmatch).
  - vm_compute. reflexivity.
  - right. left.
Defined.

Lemma write_rows_blocked_filter_witness :
  write_rows (H := ex_similarity) true ex_label_dict
    ex_zagat_frame ex_fodors_frame =
  (filter (λ r, city_differs ex_zagat_frame ex_fodors_frame r.1.1 r.1.2
                = Ok false) ex_rows, None).
Proof.
  apply (write_rows_blocked_filter (H := ex_similarity)).
  - vm_compute. reflexivity.
  - intros i j Hi Hj. unfold frame_index in Hi, Hj. simpl in Hi, Hj.
    elem_cases Hi; elem_cases Hj; eexists; vm_compute; reflexivity.
Defined.

Lemma find_matches_unseen_signature_witness :
  find_matches (H := ex_similarity) [(1, 1)%Z] [(1, 2)%Z]
    ex_zagat_frame ex_fodors_frame (1 # 2) (1 # 2) false
    = Ok (ex_rows, None) ∧
  (1%Z, 3%Z, PossibleMatch) ∈ ex_rows ∧
  gen_prob_tuple (H := ex_similarity) 1 3 (frame_data ex_zagat_frame)
    (frame_data ex_fodors_frame) = Ok [low; low] ∧
  PossibleMatch = PossibleMatch.
Proof.
  assert (find_matches (H := ex_similarity) [(1, 1)%Z] [(1, 2)%Z]
            ex_zagat_frame ex_fodors_frame (1 # 2) (1 # 2) false
          = Ok (ex_rows, None)) as Hfm by (vm_compute; reflexivity).
  assert ((1%Z, 3%Z, PossibleMatch) ∈ ex_rows) as Hr
    by (do 2 right; left).
  assert (gen_prob_tuple (H := ex_similarity) 1 3
            (frame_data ex_zagat_frame) (frame_data ex_fodors_frame)
          = Ok [low; low]) as Hs by (vm_compute; reflexivity).
  split_and!; [done..|].
  apply (find_matches_unseen_signature (H := ex_similarity)
           _ _ _ _ _ _ _ _ _ _ _ _ _ Hfm Hr Hs).
  intros row Hrow. simpl in Hrow. elem_cases Hrow; vm_compute; discriminate.
Defined.

Lemma find_matches_match_only_signature_witness :
  find_matches (H := ex_similarity) [(1, 1)%Z] [(1, 2)%Z]
    ex_zagat_frame ex_fodors_frame (1 # 2) (1 # 2) false
    = Ok (ex_rows, None) ∧
  (2%Z, 3%Z, Match) ∈ ex_rows ∧
  gen_prob_tuple (H := ex_similarity) 2 3 (frame_data ex_zagat_frame)
    (frame_data ex_fodors_frame) = Ok [high; high] ∧
  Match = Match.
Proof.
  assert (find_matches (H := ex_similarity) [(1, 1)%Z] [(1, 2)%Z]
            ex_zagat_frame ex_fodors_frame (1 # 2) (1 # 2) false
          = Ok (ex_rows, None)) as Hfm by (vm_compute; reflexivity).
  assert ((2%Z, 3%Z, Match) ∈ ex_rows) as Hr by (do 5 right; left).
  assert (gen_prob_tuple (H := ex_similarity) 2 3
            (frame_data ex_zagat_frame) (frame_data ex_fodors_frame)
          = Ok [high; high]) as Hs by (vm_compute; reflexivity).
  split_and!; [done..|].
  apply (find_matches_match_only_signature (H := ex_similarity)
           _ _ _ _ _ _ _ _ _ _ _ _ _ Hfm Hr Hs).
  - exists (1, 1)%Z. split; [left|vm_compute; reflexivity].
  - intros row Hrow. elem_cases Hrow. vm_compute. discriminate.
  - vm_compute. discriminate.
Defined.

Lemma find_matches_unmatch_only_signature_witness :
  find_matches (H := ex_similarity) [(1, 1)%Z] [(1, 2)%Z]
    ex_zagat_frame ex_fodors_frame (1 # 2) (1 # 2) false
    = Ok (ex_rows, None) ∧
  (1%Z, 2%Z, Unmatch) ∈ ex_rows ∧
  gen_prob_tuple (H := ex_similarity) 1 2 (frame_data ex_zagat_frame)
    (frame_data ex_fodors_frame) = Ok [low; high] ∧
  (Unmatch = Unmatch ∨ Unmatch = Match).
Proof.
  assert (find_matches (H := ex_similarity) [(1, 1)%Z] [(1, 2)%Z]
            ex_zagat_frame ex_fodors_frame (1 # 2) (1 # 2) false
          = Ok (ex_rows, None)) as Hfm by (vm_compute; reflexivity).
  assert ((1%Z, 2%Z, Unmatch) ∈ ex_rows) as Hr by (right; left).
  assert (gen_prob_tuple (H := ex_similarity) 1 2
            (frame_data ex_zagat_frame) (frame_data ex_fodors_frame)
          = Ok [low; high]) as Hs by (vm_compute; reflexivity).
  split_and!; [done..|].
  apply (find_matches_unmatch_only_signature (H := ex_similarity)
           _ _ _ _ _ _ _ _ _ _ _ _ _ Hfm Hr Hs).
  - exists (1, 2)%Z. split; [left|vm_compute; reflexivity].
  - intros row Hrow. elem_cases Hrow. vm_compute. discriminate.
  - vm_compute. discriminate.
Defined.

Lemma gen_prob_tuple_key_error_witness :
  gen_prob_tuple (H := ex_similarity) 7 1 ex_zagat ex_fodors
    = Raise KeyError.
Proof.
  apply (proj2 (gen_prob_tuple_key_error (H := ex_similarity) 7 1
                  ex_zagat ex_fodors)).
  left. vm_compute. reflexivity.
Defined.

Lemma compute_probabilities_first_error_witness :
  compute_probabilities (H := ex_similarity) [(1, 1); (1, 2); (7, 1)]%Z
    ex_zagat ex_fodors = Raise IndexError.
Proof.
  apply (proj2 (proj1 (compute_probabilities_first_error
                         (H := ex_similarity) [(1, 1); (1, 2); (7, 1)]%Z
                         ex_zagat ex_fodors) IndexError)).
  exists 1%nat, (1, 2)%Z. split_and!.
  - reflexivity.
  - vm_compute. reflexivity.
  - intros k' row' Hlt Hk'. destruct k' as [|k']; [|lia].
    injection Hk' as <-. eexists. vm_compute. reflexivity.
Defined.

Lemma write_rows_first_error_witness :
  write_rows (H := ex_similarity) false ex_label_dict
    ex_zagat_frame ex_fodors_names = ([], Some IndexError).
Proof.
  apply (proj2 (write_rows_first_error (H := ex_similarity) false
                  ex_label_dict ex_zagat_frame ex_fodors_names
                  [] IndexError)).
  exists [], (1, 1)%Z, [(1, 2); (2, 1); (2, 2)]%Z, [].
  split_and!.
  - vm_compute. reflexivity.
  - constructor.
  - reflexivity.
  - vm_compute. reflexivity.
Defined.

Lemma label_dict_keys_witness :
  ex_hh ∈ dom ex_label_dict.
Proof.
  apply (proj2 (label_dict_keys (H := ex_similarity) ex_pairs [(1, 3)%Z]
                  ex_zagat ex_fodors (1 # 2) (1 # 2) ex_label_dict ex_hh
                  ltac:(vm_compute; reflexivity))).
  exists (1, 1)%Z. split; [left|vm_compute; reflexivity].
Defined.






